(** * rust-binance: authenticated transport and stream event decoding

    A shallow embedding of the request-signing path
    ([src/common/client.rs], [src/futures/client.rs]), the HTTP response
    decoder ([Client::decode_response] in [src/futures/client.rs]) and the
    WebSocket receive loops and event decoders ([src/futures/websocket.rs],
    [src/spot/websocket.rs]).

    Rust strings are modelled as Rocq [string]s (one byte per character),
    bytes as 8-bit [Z]s, [u32] words as [Z] with the wrap-around written
    out, and [Result] / panics as explicit data. *)

From Stdlib Require Import String Ascii List ZArith NArith Bool Lia PrimFloat.
Import ListNotations.
Open Scope Z_scope.

(* ------------------------------------------------------------------ *)
(** ** Rust results and panics *)

(** [Result<A, E>]. *)
Inductive result (A E : Type) : Type :=
| Ok (a : A)
| Err (e : E).
Arguments Ok {A E} a.
Arguments Err {A E} e.

(** A computation that either returns a value or panics (unwinds). *)
Inductive panicking (A : Type) : Type :=
| Returns (a : A)
| Panics (msg : string).
Arguments Returns {A} a.
Arguments Panics {A} msg.

(** [Option::unwrap]. *)
Definition unwrap {A} (o : option A) : panicking A :=
  match o with
  | Some a => Returns a
  | None => Panics "called `Option::unwrap()` on a `None` value"
  end.

(** [Option::unwrap_or]. *)
Definition unwrap_or {A} (o : option A) (d : A) : A :=
  match o with Some a => a | None => d end.

(** [Option::is_some]. *)
Definition is_some {A} (o : option A) : bool :=
  match o with Some _ => true | None => false end.

(** The [?] operator inside a function returning [anyhow::Result]:
    a panic propagates, an [Err] returns early, an [Ok] continues. *)
Definition try_bind {A B E} (m : panicking (result A E))
    (k : A -> panicking (result B E)) : panicking (result B E) :=
  match m with
  | Panics msg => Panics msg
  | Returns (Err e) => Returns (Err e)
  | Returns (Ok a) => k a
  end.

Notation "'let?' x := m 'in' k" := (try_bind m (fun x => k))
  (at level 200, x name, m at level 100, k at level 200).

(* ------------------------------------------------------------------ *)
(** ** Bytes and text *)

(** [str::as_bytes]: one byte per character. *)
Definition as_bytes (s : string) : list Z :=
  map (fun a => Z.of_N (N_of_ascii a)) (list_ascii_of_string s).

(** One lowercase hexadecimal digit. *)
Definition hex_digit (n : Z) : ascii :=
  if n <? 10 then ascii_of_N (Z.to_N (48 + n)) else ascii_of_N (Z.to_N (87 + n)).

(** [format!("{:x}", bytes)] on a [GenericArray<u8, _>]: two lowercase
    hex digits per byte, most significant nibble first. *)
Fixpoint lower_hex (bs : list Z) : string :=
  match bs with
  | [] => EmptyString
  | b :: rest =>
      String (hex_digit (Z.shiftr b 4))
        (String (hex_digit (Z.land b 15)) (lower_hex rest))
  end.

(** Every character of [s] is one of [0-9a-f]. *)
Fixpoint all_lower_hex (s : string) : bool :=
  match s with
  | EmptyString => true
  | String c rest =>
      let n := nat_of_ascii c in
      (((48 <=? n) && (n <=? 57)) || ((97 <=? n) && (n <=? 102)))%nat && all_lower_hex rest
  end.

(** [format!("{}", n)] for an unsigned integer: its decimal digits. *)
Fixpoint decimal_aux (fuel : nat) (n : N) (acc : string) : string :=
  match fuel with
  | O => acc
  | S f =>
      let d := ascii_of_N (48 + N.modulo n 10)%N in
      if (n <? 10)%N then String d acc
      else decimal_aux f (N.div n 10) (String d acc)
  end.

Definition decimal (n : N) : string := decimal_aux (N.to_nat (N.size n) + 1) n EmptyString.

(* ------------------------------------------------------------------ *)
(** ** SHA-256 and HMAC-SHA256 (the [sha2] and [hmac] crates)

    FIPS 180-4 over 32-bit words held in [Z]; every addition is reduced
    modulo 2^32 as the crate's [wrapping_add] does. *)

Module Sha256.

Definition mask32 (x : Z) : Z := Z.land x (Z.ones 32).
Definition add32 (x y : Z) : Z := mask32 (x + y).
Definition rotr (x n : Z) : Z :=
  mask32 (Z.lor (Z.shiftr x n) (Z.shiftl x (32 - n))).
Definition not32 (x : Z) : Z := Z.lxor x (Z.ones 32).

Definition ch (x y z : Z) : Z := Z.lxor (Z.land x y) (Z.land (not32 x) z).
Definition maj (x y z : Z) : Z :=
  Z.lxor (Z.lxor (Z.land x y) (Z.land x z)) (Z.land y z).
Definition bsig0 (x : Z) : Z := Z.lxor (Z.lxor (rotr x 2) (rotr x 13)) (rotr x 22).
Definition bsig1 (x : Z) : Z := Z.lxor (Z.lxor (rotr x 6) (rotr x 11)) (rotr x 25).
Definition ssig0 (x : Z) : Z := Z.lxor (Z.lxor (rotr x 7) (rotr x 18)) (Z.shiftr x 3).
Definition ssig1 (x : Z) : Z := Z.lxor (Z.lxor (rotr x 17) (rotr x 19)) (Z.shiftr x 10).

(** The first [k] primes. *)
Definition is_prime (n : Z) : bool :=
  (1 <? n) && forallb (fun d => negb (n mod d =? 0)) (map Z.of_nat (seq 2 (Z.to_nat n - 2))).

Definition first_primes (k : nat) : list Z :=
  firstn k (filter is_prime (map Z.of_nat (seq 2 400))).

(** Integer cube root, one bit at a time from bit 39 down. *)
Definition icbrt (n : Z) : Z :=
  fold_left (fun r i => let c := Z.lor r (Z.shiftl 1 (Z.of_nat i)) in
                        if c * c * c <=? n then c else r)
            (rev (seq 0 40)) 0.

(** Round constants: the first 32 fractional bits of the cube roots of
    the first 64 primes (FIPS 180-4, 4.2.2). *)
Definition K : list Z := map (fun p => mask32 (icbrt (p * 2 ^ 96))) (first_primes 64).

(** Initial hash value: the first 32 fractional bits of the square roots
    of the first 8 primes (FIPS 180-4, 5.3.3). *)
Definition H0 : list Z := map (fun p => mask32 (Z.sqrt (p * 2 ^ 64))) (first_primes 8).

(** Padding: a 1 bit, zeros, and the bit length as a 64-bit big-endian
    integer, up to a multiple of 64 bytes. *)
Definition be_bytes (width : nat) (x : Z) : list Z :=
  map (fun i => Z.land (Z.shiftr x (8 * Z.of_nat (width - 1 - i))) 255) (seq 0 width).

Definition pad (msg : list Z) : list Z :=
  let l := Z.of_nat (length msg) in
  let zeros := Z.to_nat ((55 - l) mod 64) in
  msg ++ [0x80] ++ repeat 0 zeros ++ be_bytes 8 (8 * l).

Fixpoint words (n : nat) (bs : list Z) : list Z :=
  match n with
  | O => []
  | S n' =>
      match bs with
      | b0 :: b1 :: b2 :: b3 :: rest =>
          Z.lor (Z.shiftl b0 24) (Z.lor (Z.shiftl b1 16) (Z.lor (Z.shiftl b2 8) b3))
            :: words n' rest
      | _ => []
      end
  end.

(** The message schedule W_0 .. W_63 of one block. *)
Definition schedule (w16 : list Z) : list Z :=
  let fix go (n : nat) (ws : list Z) :=
    match n with
    | O => ws
    | S n' =>
        let t := length ws in
        let w := add32 (add32 (ssig1 (nth (t - 2) ws 0)) (nth (t - 7) ws 0))
                       (add32 (ssig0 (nth (t - 15) ws 0)) (nth (t - 16) ws 0)) in
        go n' (ws ++ [w])
    end in
  go 48%nat w16.

Record regs := mkRegs { ra : Z; rb : Z; rc : Z; rd : Z; re : Z; rf : Z; rg : Z; rh : Z }.

Definition round (s : regs) (kw : Z * Z) : regs :=
  let '(k, w) := kw in
  let t1 := add32 (add32 (add32 (rh s) (bsig1 (re s))) (add32 (ch (re s) (rf s) (rg s)) k)) w in
  let t2 := add32 (bsig0 (ra s)) (maj (ra s) (rb s) (rc s)) in
  mkRegs (add32 t1 t2) (ra s) (rb s) (rc s) (add32 (rd s) t1) (re s) (rf s) (rg s).

Definition regs_of (h : list Z) : regs :=
  mkRegs (nth 0 h 0) (nth 1 h 0) (nth 2 h 0) (nth 3 h 0)
         (nth 4 h 0) (nth 5 h 0) (nth 6 h 0) (nth 7 h 0).

Definition list_of (s : regs) : list Z :=
  [ra s; rb s; rc s; rd s; re s; rf s; rg s; rh s].

Definition compress (h : list Z) (block : list Z) : list Z :=
  let w := schedule (words 16 block) in
  let s := fold_left round (combine K w) (regs_of h) in
  map (fun p => add32 (fst p) (snd p)) (combine h (list_of s)).

Fixpoint blocks (n : nat) (h : list Z) (bs : list Z) : list Z :=
  match n with
  | O => h
  | S n' => blocks n' (compress h (firstn 64 bs)) (skipn 64 bs)
  end.

Definition hash (msg : list Z) : list Z :=
  let p := pad msg in
  let h := blocks (length p / 64) H0 p in
  flat_map (be_bytes 4) h.

(** HMAC (RFC 2104) with a 64-byte block. *)
Definition hmac (key msg : list Z) : list Z :=
  let k := if (64 <? length key)%nat then hash key else key in
  let k := k ++ repeat 0 (64 - length k) in
  let ipad := map (Z.lxor 0x36) k in
  let opad := map (Z.lxor 0x5c) k in
  hash (opad ++ hash (ipad ++ msg)).

End Sha256.

(* ------------------------------------------------------------------ *)
(** ** The signing client ([src/common/client.rs], [src/futures/client.rs])

    Both [Client] structs keep [auth: Option<Authentication>] and their
    [compute_signature] / [sign_form] bodies are the same text; one
    embedding serves both. *)

Record Authentication := mkAuthentication {
  api_secret : string;
  api_key : string;
}.

Record Client := mkClient {
  auth : option Authentication;
  base_url : string;
}.

(** [hmac::Hmac::<Sha256>::new_varkey]: HMAC takes keys of every length,
    so the [InvalidKeyLength] error is never produced. *)
Definition new_varkey (key : list Z) : result (list Z) string := Ok key.

(** [Client::compute_signature]; [anyhow::Error] is kept as its message. *)
Definition compute_signature (self : Client) (request_body : string)
    : panicking (result string string) :=
  match unwrap (auth self) with
  | Panics msg => Panics msg
  | Returns a =>
      match new_varkey (as_bytes (api_secret a)) with
      | Err err => Returns (Err ("hmac: " ++ err)%string)
      | Ok macr => Returns (Ok (lower_hex (Sha256.hmac macr (as_bytes request_body))))
      end
  end.

(** [Client::sign_form]; [timestamp] is the value of the wall clock
    ([SystemTime::now()] in milliseconds) read by the call. *)
Definition sign_form (self : Client) (form : option string) (timestamp : N)
    : panicking (result string string) :=
  let form := unwrap_or form EmptyString in
  let form := (form ++ "&recvWindow=1000&timestamp=" ++ decimal timestamp)%string in
  let? signature := compute_signature self form in
  Returns (Ok (form ++ "&signature=" ++ signature)%string).

(* ------------------------------------------------------------------ *)
(** ** JSON values ([serde_json::Value])

    Numbers are kept as integers: no claim below depends on how a
    fractional number is represented. An object is an association list
    with unique keys, as [serde_json::Map] has them. *)

Set Warnings "-register-all".
Inductive Value : Type :=
| Null
| Bool (b : bool)
| Number (n : Z)
| VString (s : string)
| Array (l : list Value)
| Object (m : list (string * Value)).

(** The [Display] text of a [serde_json::Error]. *)
Definition serde_error := string.

Fixpoint find_key (k : string) (m : list (string * Value)) : option Value :=
  match m with
  | [] => None
  | (k', v) :: rest => if String.eqb k k' then Some v else find_key k rest
  end.

(** [value[k]] ([Index<&str> for Value]): the member, or [Null] when the
    key is absent or the value is not an object. *)
Definition index (v : Value) (k : string) : Value :=
  match v with
  | Object m => match find_key k m with Some x => x | None => Null end
  | _ => Null
  end.

Definition as_str (v : Value) : option string :=
  match v with VString s => Some s | _ => None end.

Definition is_string (v : Value) : bool :=
  match v with VString _ => true | _ => false end.

(** The double-quote character ([ascii] 34), usable as a pattern. *)
Abbreviation DQ := (Ascii false true false false false true false false).

(** JSON texts in the examples below are written with single quotes,
    each standing for a double quote. *)
Definition jtext (s : string) : string :=
  string_of_list_ascii
    (map (fun c => if Ascii.eqb c "'"%char then DQ else c) (list_ascii_of_string s)).

(** *** A JSON text parser

    [serde_json::from_str::<Value>] restricted to texts without fractional
    numbers or [\u] escapes (such texts are refused); the decoders below
    take the parser as a parameter, this one is used to run them on
    concrete frames. *)
Module Json.
Local Open Scope char_scope.

Definition is_ws (c : ascii) : bool :=
  (Ascii.eqb c " " || Ascii.eqb c (ascii_of_nat 10) || Ascii.eqb c (ascii_of_nat 9)
   || Ascii.eqb c (ascii_of_nat 13))%bool.

Fixpoint skip_ws (l : list ascii) : list ascii :=
  match l with
  | c :: r => if is_ws c then skip_ws r else l
  | [] => []
  end.

Definition escape (c : ascii) : option ascii :=
  if Ascii.eqb c DQ then Some DQ
  else if Ascii.eqb c "\" then Some "\"%char
  else if Ascii.eqb c "/" then Some "/"%char
  else if Ascii.eqb c "n" then Some (ascii_of_nat 10)
  else if Ascii.eqb c "t" then Some (ascii_of_nat 9)
  else if Ascii.eqb c "r" then Some (ascii_of_nat 13)
  else if Ascii.eqb c "b" then Some (ascii_of_nat 8)
  else if Ascii.eqb c "f" then Some (ascii_of_nat 12)
  else None.

(** The body of a string literal, after its opening quote. *)
Fixpoint pstring (l : list ascii) (acc : list ascii) : option (string * list ascii) :=
  match l with
  | [] => None
  | c :: r =>
      if Ascii.eqb c DQ then Some (string_of_list_ascii (rev acc), r)
      else if Ascii.eqb c "\" then
        match r with
        | e :: r' => match escape e with Some x => pstring r' (x :: acc) | None => None end
        | [] => None
        end
      else pstring r (c :: acc)
  end.

Definition digit (c : ascii) : option Z :=
  let n := Z.of_nat (nat_of_ascii c) in
  if ((48 <=? n) && (n <=? 57))%Z then Some (n - 48)%Z else None.

Fixpoint pdigits (l : list ascii) (acc : Z) (seen : bool) : option (Z * list ascii) :=
  match l with
  | c :: r =>
      match digit c with
      | Some d => pdigits r (10 * acc + d)%Z true
      | None =>
          if seen then
            if (Ascii.eqb c "." || Ascii.eqb c "e" || Ascii.eqb c "E")%bool then None
            else Some (acc, l)
          else None
      end
  | [] => if seen then Some (acc, []) else None
  end.

Definition pnumber (l : list ascii) : option (Value * list ascii) :=
  match l with
  | c :: r =>
      if Ascii.eqb c "-" then
        match pdigits r 0%Z false with Some (n, r') => Some (Number (- n)%Z, r') | None => None end
      else match pdigits l 0%Z false with Some (n, r') => Some (Number n, r') | None => None end
  | [] => None
  end.

(** Later members overwrite earlier ones with the same key. *)
Definition obj_insert (k : string) (v : Value) (m : list (string * Value)) :=
  (k, v) :: filter (fun p => negb (String.eqb (fst p) k)) m.

Fixpoint pvalue (fuel : nat) (l : list ascii) : option (Value * list ascii) :=
  match fuel with
  | O => None
  | S n =>
      match skip_ws l with
      | "n" :: "u" :: "l" :: "l" :: r => Some (Null, r)
      | "t" :: "r" :: "u" :: "e" :: r => Some (Bool true, r)
      | "f" :: "a" :: "l" :: "s" :: "e" :: r => Some (Bool false, r)
      | DQ :: r =>
          match pstring r [] with Some (s, r') => Some (VString s, r') | None => None end
      | "[" :: r =>
          let fix elems (m : nat) (l : list ascii) (acc : list Value) :=
            match m with
            | O => None
            | S m' =>
                match pvalue n l with
                | Some (v, r) =>
                    match skip_ws r with
                    | "," :: r' => elems m' r' (v :: acc)
                    | "]" :: r' => Some (Array (rev (v :: acc)), r')
                    | _ => None
                    end
                | None => None
                end
            end in
          match skip_ws r with
          | "]" :: r' => Some (Array [], r')
          | r' => elems n r' []
          end
      | "{" :: r =>
          let fix members (m : nat) (l : list ascii) (acc : list (string * Value)) :=
            match m with
            | O => None
            | S m' =>
                match skip_ws l with
                | DQ :: l1 =>
                    match pstring l1 [] with
                    | Some (k, l2) =>
                        match skip_ws l2 with
                        | ":" :: l3 =>
                            match pvalue n l3 with
                            | Some (v, l4) =>
                                match skip_ws l4 with
                                | "," :: l5 => members m' l5 (obj_insert k v acc)
                                | "}" :: l5 => Some (Object (rev (obj_insert k v acc)), l5)
                                | _ => None
                                end
                            | None => None
                            end
                        | _ => None
                        end
                    | None => None
                    end
                | _ => None
                end
            end in
          match skip_ws r with
          | "}" :: r' => Some (Object [], r')
          | r' => members n r' []
          end
      | l' => pnumber l'
      end
  end.

Definition from_str (s : string) : result Value serde_error :=
  let l := list_ascii_of_string s in
  match pvalue (S (length l)) l with
  | Some (v, r) =>
      match skip_ws r with
      | [] => Ok v
      | _ => Err "trailing characters at line 1"%string
      end
  | None => Err "expected value at line 1"%string
  end.

End Json.

Open Scope string_scope.

(* ------------------------------------------------------------------ *)
(** ** API errors and the response decoder ([src/futures/client.rs]) *)

(** [ApiError { code: i64, msg: String, #[serde(flatten)] other }]. *)
Record ApiError := mkApiError {
  code : Z;
  msg : string;
  other : list (string * Value);
}.

(** The derived [Deserialize] of [ApiError] applied to a JSON value: the
    two declared fields, every other member collected into [other]. *)
Definition api_error_of_value (v : Value) : result ApiError serde_error :=
  match v with
  | Object m =>
      match find_key "code" m, find_key "msg" m with
      | Some (Number c), Some (VString s) =>
          if ((- 2 ^ 63 <=? c) && (c <? 2 ^ 63))%Z then
            Ok (mkApiError c s
                  (filter (fun p => negb (String.eqb (fst p) "code" || String.eqb (fst p) "msg")) m))
          else Err "invalid value: integer, expected i64"
      | None, _ => Err "missing field `code`"
      | _, None => Err "missing field `msg`"
      | _, _ => Err "invalid type"
      end
  | _ => Err "invalid type: expected struct ApiError"
  end.

(** [crate::Error] ([src/error.rs]); foreign errors are kept as text. *)
Module Error.
Inductive t : Type :=
| Serde (e : serde_error)
| Decode (error : serde_error) (text : string)
| Anyhow (e : string)
| Request (e : string)
| UrlEncode (e : string)
| ApiError (a : ApiError)
| UrlError (s : string).
End Error.

(** [reqwest::StatusCode::OK]. *)
Definition StatusCode_OK : N := 200.

Section DecodeResponse.

(** [serde_json::from_str::<Value>], and [serde_json::from_str::<T>] for
    the response type [T] the caller asks for. *)
Variable json_from_str : string -> result Value serde_error.
Variable T : Type.
Variable from_str_T : string -> result T serde_error.

(** [serde_json::from_str::<ApiError>]. *)
Definition api_error_from_str (body : string) : result ApiError serde_error :=
  match json_from_str body with
  | Ok v => api_error_of_value v
  | Err e => Err e
  end.

(** The [ApiError] made up from the status when the body is not one. *)
Definition synthesized_api_error (status : N) (body : string) : ApiError :=
  mkApiError (Z.of_N status) body [].

(** [Client::decode_response] ([self] is not used by the body). *)
Definition decode_response (status : N) (body : string) : result T Error.t :=
  if (status =? StatusCode_OK)%N then
    match from_str_T body with
    | Ok v => Ok v
    | Err error => Err (Error.Decode error body)
    end
  else
    match api_error_from_str body with
    | Ok error => Err (Error.ApiError error)
    | Err _ => Err (Error.ApiError (synthesized_api_error status body))
    end.

End DecodeResponse.

Arguments api_error_from_str json_from_str body : assert.
Arguments decode_response json_from_str {T} from_str_T status body : assert.

(* ------------------------------------------------------------------ *)
(** ** WebSocket frames ([tokio_tungstenite::tungstenite::Message]) *)

Module Tungstenite.
Inductive Message : Type :=
| Text (s : string)
| Binary (data : list Z)
| Ping (data : list Z)
| Pong (data : list Z)
| Close (frame : option (N * string)).

(** [tungstenite::Error], kept as its text. *)
Definition Error := string.

(** What [self.ws.next().await] yields, in order: [Some(Ok(message))] or
    [Some(Err(err))] per element, [None] once the list is exhausted. *)
Definition Incoming := list (result Message Error).
End Tungstenite.

Import Tungstenite (Text, Binary, Pong, Close).

(** Frames [WebSocket::next] hands to the decoder: the arm
    [Message::Ping(_) | Message::Text(_)]. *)
Definition forwarded (m : Tungstenite.Message) : bool :=
  match m with Tungstenite.Ping _ | Text _ => true | _ => false end.

(* ------------------------------------------------------------------ *)
(** ** The futures stream ([src/futures/websocket.rs]) *)

Module Futures.

(** The typed payloads and their derived [Deserialize] impls, as
    [serde_json::from_value] applies them; their field lists are data-shape
    plumbing no claim here looks into. *)
Record Schema := mkSchema {
  KlineEventT : Type;
  kline_of_value : Value -> result KlineEventT serde_error;
  AggTradeT : Type;
  agg_trade_of_value : Value -> result AggTradeT serde_error;
  OrderTradeUpdateEventT : Type;
  order_trade_update_of_value : Value -> result OrderTradeUpdateEventT serde_error;
  AccountUpdateT : Type;
  account_update_of_value : Value -> result AccountUpdateT serde_error;
  LiquidationEventT : Type;
  liquidation_event_of_value : Value -> result LiquidationEventT serde_error;
  TickerT : Type;
  ticker_of_value : Value -> result TickerT serde_error;
}.

Section Decoder.

Variable sch : Schema.
(** [serde_json::from_str::<Value>]. *)
Variable json_from_str : string -> result Value serde_error.

Inductive Event : Type :=
| Message (m : Tungstenite.Message)
| Kline (e : KlineEventT sch)
| AggTrade (e : AggTradeT sch)
| OrderTradeUpdate (e : OrderTradeUpdateEventT sch)
| AccountUpdate (e : AccountUpdateT sch)
| LiquidationEvent (e : LiquidationEventT sch)
| Ticker (e : TickerT sch)
| ParseError (err : string) (text : string)
| Unknown (text : string)
| Ping (data : list Z).

(** [Ok(Some(Event::X(serde_json::from_value(v)?)))]. *)
Definition some_event {A} (ctor : A -> Event) (r : result A serde_error)
    : result (option Event) serde_error :=
  match r with
  | Ok a => Ok (Some (ctor a))
  | Err e => Err e
  end.

(** [Event::decode_data]. *)
Definition decode_data (value : Value) : result (option Event) serde_error :=
  match as_str (index value "e") with
  | Some e =>
      if String.eqb e "kline" then some_event Kline (kline_of_value sch value)
      else if String.eqb e "aggTrade" then some_event AggTrade (agg_trade_of_value sch value)
      else if String.eqb e "ORDER_TRADE_UPDATE" then
        some_event OrderTradeUpdate (order_trade_update_of_value sch value)
      else if String.eqb e "ACCOUNT_UPDATE" then
        some_event AccountUpdate (account_update_of_value sch value)
      else if String.eqb e "forceOrder" then
        some_event LiquidationEvent (liquidation_event_of_value sch (index value "o"))
      else if String.eqb e "24hrTicker" then some_event Ticker (ticker_of_value sch value)
      else Ok None
  | None => Ok None
  end.

(** [Event::decode_value]: a combined-stream envelope is unwrapped to its
    [data] member. *)
Definition decode_value (value : Value) : result (option Event) serde_error :=
  if is_string (index value "stream") && is_string (index (index value "data") "e") then
    decode_data (index value "data")
  else if is_string (index value "e") then decode_data value
  else Ok None.

(** The [Message::Text] arm of [Event::decode_message]:
    [from_str(..).and_then(decode_value)], a parse or deserialize error
    becoming [ParseError], no classification becoming [Unknown]. *)
Definition decode_text (message : string) : Event :=
  let r := match json_from_str message with
           | Ok v => decode_value v
           | Err e => Err e
           end in
  match r with
  | Err err => ParseError err message
  | Ok (Some ev) => ev
  | Ok None => Unknown message
  end.

(** [Event::decode_message]; [unreachable!()] panics. *)
Definition decode_message (message : Tungstenite.Message) : panicking Event :=
  match message with
  | Text s => Returns (decode_text s)
  | Tungstenite.Ping data => Returns (Ping data)
  | _ => Panics "internal error: entered unreachable code"
  end.

(** [WebSocket::next]: returns the next result together with the frames
    not yet read. Frames outside the forwarded arm are skipped by the
    loop. *)
Fixpoint next (ws : Tungstenite.Incoming)
    : panicking (option (result Event Tungstenite.Error) * Tungstenite.Incoming) :=
  match ws with
  | [] => Returns (None, [])
  | Ok message :: rest =>
      if forwarded message then
        match decode_message message with
        | Returns ev => Returns (Some (Ok ev), rest)
        | Panics p => Panics p
        end
      else next rest
  | Err err :: rest => Returns (Some (Err err), rest)
  end.

(** A consumer calling [next] until it returns [None] (at most [fuel]
    times): the sequence of results it is handed. *)
Fixpoint drain (fuel : nat) (ws : Tungstenite.Incoming)
    : panicking (list (result Event Tungstenite.Error)) :=
  match fuel with
  | O => Returns []
  | S f =>
      match next ws with
      | Panics p => Panics p
      | Returns (None, _) => Returns []
      | Returns (Some x, rest) =>
          match drain f rest with
          | Returns xs => Returns (x :: xs)
          | Panics p => Panics p
          end
      end
  end.

Definition is_message (ev : Event) : bool :=
  match ev with Message _ => true | _ => false end.

(** [Event::is_liquidation_event]. *)
Definition is_liquidation_event (ev : Event) : bool :=
  match ev with LiquidationEvent _ => true | _ => false end.

(** The discriminator [decode_value] dispatches on: [data.e] of an
    envelope, [e] otherwise. *)
Definition discriminator (value : Value) : option string :=
  if is_string (index value "stream") && is_string (index (index value "data") "e") then
    as_str (index (index value "data") "e")
  else as_str (index value "e").

Definition known_events : list string :=
  ["kline"; "aggTrade"; "ORDER_TRADE_UPDATE"; "ACCOUNT_UPDATE"; "forceOrder"; "24hrTicker"].

End Decoder.

Arguments Message {sch} m.
Arguments Kline {sch} e.
Arguments AggTrade {sch} e.
Arguments OrderTradeUpdate {sch} e.
Arguments AccountUpdate {sch} e.
Arguments LiquidationEvent {sch} e.
Arguments Ticker {sch} e.
Arguments ParseError {sch} err text.
Arguments Unknown {sch} text.
Arguments Ping {sch} data.
Arguments is_message {sch} ev.
Arguments is_liquidation_event {sch} ev.
Arguments some_event {sch A} ctor r.

End Futures.

(** The combined-stream envelope [{"stream": s, "data": d}] as
    [serde_json] parses it. *)
Definition combined_envelope (s : string) (d : Value) : Value :=
  Object [("stream", VString s); ("data", d)].

(* ------------------------------------------------------------------ *)
(** ** The spot stream ([src/spot/websocket.rs]) *)

Module Spot.

Record Schema := mkSchema {
  ExecutionReportT : Type;
  execution_report_of_value : Value -> result ExecutionReportT serde_error;
  AccountUpdateT : Type;
  account_update_of_value : Value -> result AccountUpdateT serde_error;
}.

Section Decoder.

Variable sch : Schema.
Variable json_from_str : string -> result Value serde_error.

Inductive Event : Type :=
| ExecutionReport (e : ExecutionReportT sch)
| AccountUpdate (e : AccountUpdateT sch)
| Message (m : Tungstenite.Message).

(** [Decoder::decode_value]. *)
Definition decode_value (value : Value) : result (option Event) serde_error :=
  match as_str (index value "e") with
  | Some e =>
      if String.eqb e "executionReport" then
        match execution_report_of_value sch value with
        | Ok r => Ok (Some (ExecutionReport r))
        | Err err => Err err
        end
      else if String.eqb e "outboundAccountPosition" then
        match account_update_of_value sch value with
        | Ok r => Ok (Some (AccountUpdate r))
        | Err err => Err err
        end
      else Ok None
  | None => Ok None
  end.

(** [Decoder::decode_event]: every path that does not return a decoded
    event falls through to [Event::Message(message)] (a decode error is
    only logged). *)
Definition decode_event (message : Tungstenite.Message) : Event :=
  match message with
  | Text s =>
      match json_from_str s with
      | Ok value =>
          if is_some (as_str (index value "e")) then
            match decode_value value with
            | Ok (Some event) => event
            | Err _ => Message message
            | Ok None => Message message
            end
          else Message message
      | Err _ => Message message
      end
  | _ => Message message
  end.

(** [WebSocket::next] of the spot stream. *)
Fixpoint next (ws : Tungstenite.Incoming)
    : option (result Event Tungstenite.Error) * Tungstenite.Incoming :=
  match ws with
  | [] => (None, [])
  | Ok message :: rest =>
      if forwarded message then (Some (Ok (decode_event message)), rest) else next rest
  | Err err :: rest => (Some (Err err), rest)
  end.

End Decoder.

Arguments ExecutionReport {sch} e.
Arguments AccountUpdate {sch} e.
Arguments Message {sch} m.

End Spot.

(* ------------------------------------------------------------------ *)
(** ** A concrete schema to run the decoders on

    Every payload struct taken as having no required field: deserializing
    succeeds on any JSON object (keeping it) and fails on anything else,
    as the derived impls refuse a non-object. *)

Definition struct_of_value (v : Value) : result Value serde_error :=
  match v with
  | Object _ => Ok v
  | _ => Err "invalid type: expected struct"
  end.

Definition open_futures_schema : Futures.Schema :=
  Futures.mkSchema Value struct_of_value Value struct_of_value Value struct_of_value
                   Value struct_of_value Value struct_of_value Value struct_of_value.

Definition open_spot_schema : Spot.Schema :=
  Spot.mkSchema Value struct_of_value Value struct_of_value.

(* ------------------------------------------------------------------ *)
(** ** Text helpers of the standard library *)

(** [char::to_ascii_lowercase] and [char::to_ascii_uppercase]. The
    Unicode case mappings of [str::to_lowercase] and [str::to_uppercase]
    agree with them on ASCII text, the only text the statements below
    apply them to. *)
Definition ascii_lower (c : ascii) : ascii :=
  let n := nat_of_ascii c in
  if ((65 <=? n) && (n <=? 90))%nat then ascii_of_nat (n + 32) else c.

Definition ascii_upper (c : ascii) : ascii :=
  let n := nat_of_ascii c in
  if ((97 <=? n) && (n <=? 122))%nat then ascii_of_nat (n - 32) else c.

Fixpoint map_chars (f : ascii -> ascii) (s : string) : string :=
  match s with
  | EmptyString => EmptyString
  | String c r => String (f c) (map_chars f r)
  end.

(** [str::to_lowercase] and [str::to_uppercase] on ASCII text. *)
Definition to_lowercase (s : string) : string := map_chars ascii_lower s.
Definition to_uppercase (s : string) : string := map_chars ascii_upper s.

(** [str::is_ascii]. *)
Fixpoint is_ascii (s : string) : bool :=
  match s with
  | EmptyString => true
  | String c r => ((nat_of_ascii c <? 128)%nat && is_ascii r)%bool
  end.

(** [str::is_empty]. *)
Definition str_is_empty (s : string) : bool :=
  match s with EmptyString => true | String _ _ => false end.

(** [<[&str]>::join(sep)]. *)
Fixpoint join (sep : string) (l : list string) : string :=
  match l with
  | [] => EmptyString
  | [x] => x
  | x :: r => x ++ sep ++ join sep r
  end.

(** [u64] multiplication; an overflow panics (debug build). *)
Definition u64_mul (a b : Z) : panicking Z :=
  if (a * b <? 2 ^ 64)%Z then Returns (a * b)%Z else Panics "attempt to multiply with overflow".

(** *** Reading back what the code builds

    Not embeddings of the repository's code: [str::split(c)] and
    [str::split_once(c)], used by the round-trip statements below to read
    back the strings the code assembles. *)

Definition no_char (c : ascii) (s : string) : bool :=
  forallb (fun x => negb (Ascii.eqb x c)) (list_ascii_of_string s).

Fixpoint split_char (c : ascii) (s : string) : list string :=
  match s with
  | EmptyString => [EmptyString]
  | String x r =>
      let parts := split_char c r in
      if Ascii.eqb x c then EmptyString :: parts
      else match parts with
           | p :: ps => String x p :: ps
           | [] => [String x EmptyString]
           end
  end.

Fixpoint split_once (c : ascii) (s : string) : option (string * string) :=
  match s with
  | EmptyString => None
  | String x r =>
      if Ascii.eqb x c then Some (EmptyString, r)
      else match split_once c r with
           | Some (a, b) => Some (String x a, b)
           | None => None
           end
  end.

(** A form [k1=v1&k2=v2...] read back into its pairs. *)
Definition parse_form (s : string) : list (string * string) :=
  match s with
  | EmptyString => []
  | _ => map (fun p => match split_once "=" p with Some kv => kv | None => (p, EmptyString) end)
             (split_char "&" s)
  end.

(* ------------------------------------------------------------------ *)
(** ** Kline intervals ([src/types/interval.rs]) *)

Module Interval.

Inductive t : Type :=
| OneMinute
| ThreeMinute
| FiveMinute
| FifteenMinute
| OneHour
| FourHour
| Other (s : string).

(** [Interval::from_str_non_strict]. *)
Definition from_str_non_strict (s : string) : t :=
  if String.eqb s "1m" then OneMinute
  else if String.eqb s "3m" then ThreeMinute
  else if String.eqb s "5m" then FiveMinute
  else if String.eqb s "15m" then FifteenMinute
  else if String.eqb s "1h" then OneHour
  else if String.eqb s "4h" then FourHour
  else Other s.

(** [Interval::to_seconds]. *)
Definition to_seconds (self : t) : Z :=
  match self with
  | OneMinute => 60
  | ThreeMinute => 60 * 3
  | FiveMinute => 60 * 5
  | FifteenMinute => 60 * 15
  | OneHour => 60 * 60
  | FourHour => 60 * 60 * 4
  | Other _ => 0
  end%Z.

(** [Interval::to_millis]: [self.to_seconds() * 1000] on [u64]. *)
Definition to_millis (self : t) : panicking Z := u64_mul (to_seconds self) 1000.

(** [impl Display for Interval]. *)
Definition fmt (self : t) : string :=
  match self with
  | OneMinute => "1m"
  | ThreeMinute => "3m"
  | FiveMinute => "5m"
  | FifteenMinute => "15m"
  | OneHour => "1h"
  | FourHour => "4h"
  | Other s => s
  end.

(** The strings [from_str_non_strict] recognises. *)
Definition names : list string := ["1m"; "3m"; "5m"; "15m"; "1h"; "4h"].

End Interval.

(* ------------------------------------------------------------------ *)
(** ** Stream names and stream URLs ([src/common/websocket.rs],
    [connect_stream] / [connect_combined] of both websocket modules) *)

Definition stream_name_trade (symbol : string) : string :=
  to_lowercase symbol ++ "@trade".

Definition stream_name_aggtrade (symbol : string) : string :=
  to_lowercase symbol ++ "@aggTrade".

Definition stream_name_kline (symbol interval : string) : string :=
  to_lowercase symbol ++ "@kline_" ++ interval.

Definition stream_name_liquidation (symbol : string) : string :=
  to_lowercase symbol ++ "@forceOrder".

Definition stream_name_ticker (symbol : string) : string :=
  to_lowercase symbol ++ "@ticker".

(** [BASE_URL] of [src/futures/websocket.rs] and of [src/spot/websocket.rs]. *)
Definition futures_BASE_URL : string := "wss://fstream.binance.com".
Definition spot_BASE_URL : string := "wss://stream.binance.com:9443".

(** The URL [connect_stream(name)] opens. *)
Definition connect_stream_url (base name : string) : string := base ++ "/ws/" ++ name.

(** The URL [connect_combined(streams)] opens. *)
Definition connect_combined_url (base : string) (streams : list string) : string :=
  base ++ "/stream?streams=" ++ join "/" streams.

(* ------------------------------------------------------------------ *)
(** ** Request headers and the listen-key requests ([src/common/client.rs]) *)

(** [common::client::Client::new] (the [reqwest::Client] it creates is
    not modelled). *)
Definition common_client_new (base_url : string) (authentication : option Authentication) : Client :=
  mkClient authentication base_url.

(** The bytes [http::HeaderValue::from_str] accepts: visible ASCII, space,
    tab and bytes from 128 up; control bytes and DEL are refused. *)
Definition header_value_valid (b : Z) : bool :=
  (((32 <=? b) && negb (b =? 127)) || (b =? 9))%Z.

(** [str::parse::<HeaderValue>], its error kept as its text. *)
Definition parse_header_value (s : string) : result string string :=
  if forallb header_value_valid (as_bytes s) then Ok s else Err "failed to parse header value".

(** [HeaderMap::insert] with a [&'static str] name: the name is stored
    lower-cased (as [HeaderName] normalises it); a name already present
    gets the new value, a new name is appended. *)
Fixpoint header_insert (k v : string) (m : list (string * string)) : list (string * string) :=
  match m with
  | [] => [(to_lowercase k, v)]
  | (k', v') :: r =>
      if String.eqb (to_lowercase k) (to_lowercase k') then (k', v) :: r
      else (k', v') :: header_insert k v r
  end.

(** [Client::headers]; the [anyhow::Error] is kept as its text. *)
Definition headers (self : Client) : result (list (string * string)) string :=
  let hs : list (string * string) := [] in
  match
    match auth self with
    | Some a =>
        match parse_header_value (api_key a) with
        | Ok v => Ok (header_insert "X-MBX-APIKEY" v hs)
        | Err e => Err e
        end
    | None => Ok hs
    end
  with
  | Err e => Err e
  | Ok hs =>
      match parse_header_value "application/x-www-form-urlencoded" with
      | Ok v => Ok (header_insert "Content-Type" v hs)
      | Err e => Err e
      end
  end.

(** The HTTP method of a [reqwest::RequestBuilder]. *)
Inductive Method : Type := GET | POST | DELETE.

(** What a request is built with before it is sent. *)
Record Request := mkRequest {
  rq_method : Method;
  rq_url : string;
  rq_body : option string;
  rq_headers : list (string * string);
}.

Section Urls.

(** [reqwest::Url::parse], giving the serialized URL or the error's text,
    and [Url::set_query] on a serialized URL. *)
Variable url_parse : string -> result string string.
Variable set_query : string -> option string -> string.

(** [Client::url2]. *)
Definition url2 (self : Client) (endpoint : string) (query_string : option string)
    : result string Error.t :=
  match url_parse (base_url self ++ endpoint) with
  | Err e => Err (Error.UrlError e)
  | Ok u => Ok (set_query u query_string)
  end.

(** [Client::url]. *)
Definition url (self : Client) (endpoint : string) : result string Error.t :=
  url2 self endpoint None.

(** The request [Client::post_listenkey] sends: every [?] before
    [send()]. *)
Definition post_listenkey_request (self : Client) (endpoint : string)
    : result Request Error.t :=
  match url self endpoint with
  | Err e => Err e
  | Ok u =>
      match headers self with
      | Err e => Err (Error.Anyhow e)
      | Ok h => Ok (mkRequest POST u None h)
      end
  end.

(** The request [Client::put_listenkey] sends; [timestamp] is the clock
    reading of [get_timestamp]. *)
Definition put_listenkey_request (self : Client) (endpoint : string) (timestamp : N)
    : panicking (result Request Error.t) :=
  let form := "timestamp=" ++ decimal timestamp in
  match compute_signature self form with
  | Panics p => Panics p
  | Returns (Err e) => Returns (Err (Error.Anyhow e))
  | Returns (Ok signature) =>
      let form := form ++ "&signature=" ++ signature in
      match url self endpoint with
      | Err e => Returns (Err e)
      | Ok u =>
          match headers self with
          | Err e => Returns (Err (Error.Anyhow e))
          | Ok h => Returns (Ok (mkRequest POST u (Some form) h))
          end
      end
  end.

End Urls.

(* ------------------------------------------------------------------ *)
(** ** Field deserializers ([src/parsers.rs]) *)

(** [String::deserialize] on a JSON value: only a JSON string is taken. *)
Definition deserialize_string (d : Value) : result string serde_error :=
  match d with
  | VString s => Ok s
  | _ => Err "invalid type: expected a string"
  end.

(** [bool::from_str]. *)
Definition bool_from_str (s : string) : result bool string :=
  if String.eqb s "true" then Ok true
  else if String.eqb s "false" then Ok false
  else Err "provided string was not `true` or `false`".

(** [parse_bool_string]. *)
Definition parse_bool_string (d : Value) : result bool serde_error :=
  match deserialize_string d with
  | Err e => Err e
  | Ok s => match bool_from_str s with Ok b => Ok b | Err e => Err e end
  end.

Section F64.

(** [f64] and [f64::from_str] with its error text. *)
Variable f64 : Type.
Variable f64_from_str : string -> result f64 string.

(** [parse_f64_string]. *)
Definition parse_f64_string (d : Value) : result f64 serde_error :=
  match deserialize_string d with
  | Err e => Err e
  | Ok s => match f64_from_str s with Ok v => Ok v | Err e => Err e end
  end.

(** [parse_opt_f64_string] (and its copy [parse_f64_string_opt] in
    [src/futures/client.rs]). *)
Definition parse_opt_f64_string (d : Value) : result (option f64) serde_error :=
  match deserialize_string d with
  | Err e => Err e
  | Ok s => match f64_from_str s with Ok v => Ok (Some v) | Err e => Err e end
  end.

(** A struct field [#[serde(default, deserialize_with =
    "parse_opt_f64_string")]] read from the members [m] of an object, as
    the derived [Deserialize] reads it: [Default::default()] when the key
    is absent, the helper on the member otherwise. *)
Definition opt_f64_field (m : list (string * Value)) (key : string)
    : result (option f64) serde_error :=
  match find_key key m with
  | None => Ok None
  | Some v => parse_opt_f64_string v
  end.

End F64.

(* ------------------------------------------------------------------ *)
(** ** Shared order types ([src/types/mod.rs]) *)

Module Types.
Inductive TimeInForce : Type := GTC | IOC | FOK | GTX.
End Types.

(* ------------------------------------------------------------------ *)
(** ** The spot REST client ([src/spot/client.rs]) *)

Module SpotClient.

Definition API_ROOT : string := "https://api.binance.com".

Inductive OrderSide : Type := Buy | Sell.

Inductive OrderType : Type :=
| Market
| Limit
| STOP
| STOP_MARKET
| TAKE_PROFIT
| TAKE_PROFIT_MARKET
| TRAILING_STOP_MARKET.

(** [build_form]. *)
Definition build_form (vals : list (string * string)) : string :=
  fold_left
    (fun buf kv =>
       let buf := if negb (str_is_empty buf) then buf ++ "&" else buf in
       buf ++ fst kv ++ "=" ++ snd kv)
    vals EmptyString.

(** [SymbolFilter]; the [#[serde(flatten)] other] map is [filter_other]. *)
Record SymbolFilter := mkSymbolFilter {
  filterType : string;
  minPrice : option float;
  maxPrice : option float;
  tickSize : option float;
  minQty : option float;
  maxQty : option float;
  stepSize : option float;
  minNotional : option float;
  notional : option float;
  filter_other : list (string * Value);
}.

(** [SymbolInfo]; the [#[serde(flatten)] other] map is [info_other]. *)
Record SymbolInfo := mkSymbolInfo {
  symbol : string;
  base_asset_precision : Z;
  quote_asset : string;
  quote_asset_precision : option Z;
  filters : list SymbolFilter;
  status : string;
  info_other : list (string * Value);
}.

(** [SymbolInfo::get_filter]: [self.filters.iter().find(..)]. *)
Definition get_filter (self : SymbolInfo) (filter_name : string) : option SymbolFilter :=
  find (fun s => String.eqb (filterType s) filter_name) (filters self).

(** [SymbolInfo::get_lot_size_filter]. *)
Definition get_lot_size_filter (self : SymbolInfo) : option SymbolFilter :=
  get_filter self "LOT_SIZE".

(** [SymbolInfo::is_trading]. *)
Definition is_trading (self : SymbolInfo) : bool := String.eqb (status self) "TRADING".

End SpotClient.

(* ------------------------------------------------------------------ *)
(** ** The futures REST client ([src/futures/client.rs]) *)

(** The common client type, under a name the module below can use. *)
Definition CommonClient : Type := Client.

Module FuturesClient.

Definition API_ROOT : string := "https://fapi.binance.com".

Record Client := mkClient {
  auth : option Authentication;
  client : CommonClient;
}.

(** [futures::client::Client::new]. *)
Definition new (authentication : option Authentication) : Client :=
  mkClient authentication (common_client_new API_ROOT authentication).

(** [Client::compute_signature] of the futures client. *)
Definition compute_signature (self : Client) (request_body : string)
    : panicking (result string string) :=
  match unwrap (auth self) with
  | Panics msg => Panics msg
  | Returns a =>
      match new_varkey (as_bytes (api_secret a)) with
      | Err err => Returns (Err ("hmac: " ++ err))
      | Ok macr => Returns (Ok (lower_hex (Sha256.hmac macr (as_bytes request_body))))
      end
  end.

(** [Client::sign_form] of the futures client; [timestamp] is the clock
    reading. *)
Definition sign_form (self : Client) (form : option string) (timestamp : N)
    : panicking (result string string) :=
  let form := unwrap_or form EmptyString in
  let form := form ++ "&recvWindow=1000&timestamp=" ++ decimal timestamp in
  let? signature := compute_signature self form in
  Returns (Ok (form ++ "&signature=" ++ signature)).

(** [Client::headers] of the futures client. *)
Definition headers (self : Client) : result (list (string * string)) string :=
  let hs : list (string * string) := [] in
  match
    match auth self with
    | Some a =>
        match parse_header_value (api_key a) with
        | Ok v => Ok (header_insert "X-MBX-APIKEY" v hs)
        | Err e => Err e
        end
    | None => Ok hs
    end
  with
  | Err e => Err e
  | Ok hs =>
      match parse_header_value "application/x-www-form-urlencoded" with
      | Ok v => Ok (header_insert "Content-Type" v hs)
      | Err e => Err e
      end
  end.

Inductive PositionSide : Type := Both | Long | Short.

(** [NewOrder]; [f64] is the binary64 float. *)
Record NewOrder := mkNewOrder {
  symbol : option string;
  side : option SpotClient.OrderSide;
  order_type : option SpotClient.OrderType;
  position_side : option PositionSide;
  quantity : option float;
  price : option float;
  time_in_force : option Types.TimeInForce;
  reduce_only : option bool;
  stop_price : option float;
  client_order_id : option string;
  close_position : option bool;
}.

(** [NewOrder::default()]. *)
Definition NewOrder_default : NewOrder :=
  mkNewOrder None None None None None None None None None None None.

(** Assignments [order.f = v] to one field. *)
Definition set_quantity (o : NewOrder) (v : option float) : NewOrder :=
  mkNewOrder (symbol o) (side o) (order_type o) (position_side o) v (price o)
    (time_in_force o) (reduce_only o) (stop_price o) (client_order_id o) (close_position o).

Definition set_price (o : NewOrder) (v : option float) : NewOrder :=
  mkNewOrder (symbol o) (side o) (order_type o) (position_side o) (quantity o) v
    (time_in_force o) (reduce_only o) (stop_price o) (client_order_id o) (close_position o).

Definition set_time_in_force (o : NewOrder) (v : option Types.TimeInForce) : NewOrder :=
  mkNewOrder (symbol o) (side o) (order_type o) (position_side o) (quantity o) (price o)
    v (reduce_only o) (stop_price o) (client_order_id o) (close_position o).

Definition set_reduce_only (o : NewOrder) (v : option bool) : NewOrder :=
  mkNewOrder (symbol o) (side o) (order_type o) (position_side o) (quantity o) (price o)
    (time_in_force o) v (stop_price o) (client_order_id o) (close_position o).

Definition set_client_order_id (o : NewOrder) (v : option string) : NewOrder :=
  mkNewOrder (symbol o) (side o) (order_type o) (position_side o) (quantity o) (price o)
    (time_in_force o) (reduce_only o) (stop_price o) v (close_position o).

Definition set_close_position (o : NewOrder) (v : option bool) : NewOrder :=
  mkNewOrder (symbol o) (side o) (order_type o) (position_side o) (quantity o) (price o)
    (time_in_force o) (reduce_only o) (stop_price o) (client_order_id o) v.

(** [NewOrder::new]. *)
Definition NewOrder_new (s : string) (sd : SpotClient.OrderSide) (ot : SpotClient.OrderType)
    : NewOrder :=
  mkNewOrder (Some (to_uppercase s)) (Some sd) (Some ot)
    None None None None None None None None.

(** [NewOrder::new_market_buy]. *)
Definition new_market_buy (s : string) (q : float) : NewOrder :=
  let order := NewOrder_new s SpotClient.Buy SpotClient.Market in
  set_quantity order (Some q).

(** [NewOrder::new_market_sell]. *)
Definition new_market_sell (s : string) (q : float) : NewOrder :=
  let order := NewOrder_new s SpotClient.Sell SpotClient.Market in
  set_quantity order (Some q).

(** [NewOrder::new_limit_buy]. *)
Definition new_limit_buy (s : string) (p q : float) : NewOrder :=
  let order := NewOrder_new s SpotClient.Buy SpotClient.Limit in
  let order := set_price order (Some p) in
  let order := set_quantity order (Some q) in
  set_time_in_force order (Some Types.GTC).

(** [NewOrder::new_limit_sell]: [if quantity > 0.0] is IEEE [0 < q]. *)
Definition new_limit_sell (s : string) (p q : float) : NewOrder :=
  let order := NewOrder_new s SpotClient.Sell SpotClient.Limit in
  let order := set_price order (Some p) in
  let order := if PrimFloat.ltb 0%float q then set_quantity order (Some q) else order in
  set_time_in_force order (Some Types.GTC).

(** The builder methods [NewOrder::client_order_id], [reduce_only],
    [close_position] (their names are taken by the fields) and
    [post_only]. *)
Definition NewOrder_client_order_id (self : NewOrder) (order_id : string) : NewOrder :=
  set_client_order_id self (Some order_id).

Definition NewOrder_reduce_only (self : NewOrder) : NewOrder :=
  set_reduce_only self (Some true).

Definition NewOrder_close_position (self : NewOrder) : NewOrder :=
  set_close_position self (Some true).

Definition post_only (self : NewOrder) : NewOrder :=
  set_time_in_force self (Some Types.GTX).

End FuturesClient.

(* ------------------------------------------------------------------ *)
(** ** Runs on concrete inputs *)

Example sha256_abc :
  lower_hex (Sha256.hash (as_bytes "abc"))
  = "ba7816bf8f01cfea414140de5dae2223b00361a396177a9cb410ff61f20015ad"%string.
Proof. vm_compute. reflexivity. Qed.

Example sha256_empty :
  lower_hex (Sha256.hash (as_bytes EmptyString))
  = "e3b0c44298fc1c149afbf4c8996fb92427ae41e4649b934ca495991b7852b855"%string.
Proof. vm_compute. reflexivity. Qed.

Example hmac_fox :
  lower_hex (Sha256.hmac (as_bytes "key") (as_bytes "The quick brown fox jumps over the lazy dog"))
  = "f7bc83f430538424b13298e6aa6fb143ef4d59a14946175997479dbc2d1a3cd8"%string.
Proof. vm_compute. reflexivity. Qed.

Example decimal_ts : decimal 1499827319559 = "1499827319559"%string.
Proof. vm_compute. reflexivity. Qed.

Example hmac_exchange_doc :
  lower_hex (Sha256.hmac
    (as_bytes "NhqPtmdSJYdKjVHjA7PZj4Mge3R5YNiP1e3UZjInClVN65XAbvqqM6A7H5fATj0j")
    (as_bytes "symbol=LTCBTC&side=BUY&type=LIMIT&timeInForce=GTC&quantity=1&price=0.1&recvWindow=5000&timestamp=1499827319559"))
  = "c8db56825ae71d6d79447849e617115f4a920fa2acdcab2b053c4b2838bd6b71"%string.
Proof. vm_compute. reflexivity. Qed.

Example json_envelope :
  Json.from_str (jtext "{'stream':'x@aggTrade','data':{'e':'aggTrade','a':5}}")
  = Ok (Object [("stream", VString "x@aggTrade");
                ("data", Object [("e", VString "aggTrade"); ("a", Number 5)])]).
Proof. vm_compute. reflexivity. Qed.

(** The documented behaviours on canned bodies, with [T = Value]. *)
Example decode_response_unknown_order :
  decode_response Json.from_str Json.from_str 400
    (jtext "{'code':-2011,'msg':'Unknown order sent.'}")
  = Err (Error.ApiError (mkApiError (-2011) "Unknown order sent." [])).
Proof. vm_compute. reflexivity. Qed.

Example decode_response_empty_body :
  decode_response Json.from_str Json.from_str 502 EmptyString
  = Err (Error.ApiError (mkApiError 502 EmptyString [])).
Proof. vm_compute. reflexivity. Qed.

Example futures_liquidation_envelope :
  Futures.decode_text open_futures_schema Json.from_str
    (jtext "{'stream':'dogebusd@forceOrder','data':{'e':'forceOrder','o':{'s':'DOGEBUSD'}}}")
  = Futures.LiquidationEvent (sch := open_futures_schema) (Object [("s", VString "DOGEBUSD")]).
Proof. vm_compute. reflexivity. Qed.

Example futures_not_json :
  Futures.decode_text open_futures_schema Json.from_str "not json"
  = Futures.ParseError "expected value at line 1" "not json".
Proof. vm_compute. reflexivity. Qed.

Example futures_unknown :
  Futures.decode_text open_futures_schema Json.from_str (jtext "{'e':'somethingNew'}")
  = Futures.Unknown (jtext "{'e':'somethingNew'}").
Proof. vm_compute. reflexivity. Qed.

Example spot_kline_unclassified :
  Spot.decode_event open_spot_schema Json.from_str (Text (jtext "{'e':'kline'}"))
  = Spot.Message (Text (jtext "{'e':'kline'}")).
Proof. vm_compute. reflexivity. Qed.

(* ------------------------------------------------------------------ *)
(** ** Signing *)

Lemma land_15_range (b : Z) : 0 <= Z.land b 15 <= 15.
Proof.
  assert (Z.land b 15 = b mod 16) as -> by exact (Z.land_ones b 4 ltac:(lia)).
  pose proof (Z.mod_pos_bound b 16). lia.
Qed.

Lemma hex_digit_lower (n : Z) : 0 <= n <= 15 ->
  forall rest, all_lower_hex (String (hex_digit n) rest) = all_lower_hex rest.
Proof.
  intros Hn rest.
  assert (n = 15 \/ n = 14 \/ n = 13 \/ n = 12 \/ n = 11 \/ n = 10 \/ n = 9 \/ n = 8 \/
          n = 7 \/ n = 6 \/ n = 5 \/ n = 4 \/ n = 3 \/ n = 2 \/ n = 1 \/ n = 0)
    as Hcases by lia.
  repeat destruct Hcases as [-> | Hcases]; try subst n; reflexivity.
Qed.

Lemma lower_hex_all (bs : list Z) :
  Forall (fun b => 0 <= b <= 255) bs -> all_lower_hex (lower_hex bs) = true.
Proof.
  induction 1 as [| b bs Hb _ IH]; [reflexivity |].
  simpl lower_hex.
  rewrite hex_digit_lower.
  2:{ rewrite Z.shiftr_div_pow2 by lia. change (2 ^ 4) with 16. split.
      - apply Z.div_pos; lia.
      - assert (b / 16 < 16) by (apply Z.div_lt_upper_bound; lia). lia. }
  rewrite hex_digit_lower by apply land_15_range.
  exact IH.
Qed.

Lemma lower_hex_length (bs : list Z) : String.length (lower_hex bs) = (2 * length bs)%nat.
Proof. induction bs; simpl; lia. Qed.

Lemma be_bytes_range (w : nat) (x : Z) :
  Forall (fun b => 0 <= b <= 255) (Sha256.be_bytes w x).
Proof.
  apply Forall_forall. unfold Sha256.be_bytes. intros b Hin.
  apply in_map_iff in Hin as [i [<- _]].
  set (y := Z.shiftr x (8 * Z.of_nat (w - 1 - i))).
  assert (Z.land y 255 = y mod 256) as -> by exact (Z.land_ones y 8 ltac:(lia)).
  pose proof (Z.mod_pos_bound y 256). lia.
Qed.

Lemma hash_bytes (m : list Z) : Forall (fun b => 0 <= b <= 255) (Sha256.hash m).
Proof.
  unfold Sha256.hash. apply Forall_forall. intros b Hin.
  apply in_flat_map in Hin as [w [_ Hw]].
  exact (proj1 (Forall_forall _ _) (be_bytes_range 4 w) b Hw).
Qed.

Lemma compress_length (h block : list Z) :
  length h = 8%nat -> length (Sha256.compress h block) = 8%nat.
Proof.
  intros Hh. unfold Sha256.compress. rewrite length_map, length_combine, Hh.
  reflexivity.
Qed.

Lemma blocks_length (n : nat) (h bs : list Z) :
  length h = 8%nat -> length (Sha256.blocks n h bs) = 8%nat.
Proof.
  revert h bs. induction n as [| n IH]; intros h bs Hh; simpl; [exact Hh |].
  apply IH, compress_length, Hh.
Qed.

Lemma be_bytes_length (w : nat) (x : Z) : length (Sha256.be_bytes w x) = w.
Proof. unfold Sha256.be_bytes. rewrite length_map, length_seq. reflexivity. Qed.

Lemma hash_length (m : list Z) : length (Sha256.hash m) = 32%nat.
Proof.
  unfold Sha256.hash.
  assert (Hb := blocks_length (length (Sha256.pad m) / 64) Sha256.H0 (Sha256.pad m) eq_refl).
  revert Hb. generalize (Sha256.blocks (length (Sha256.pad m) / 64) Sha256.H0 (Sha256.pad m)).
  intros h Hh.
  assert (forall l : list Z, length (flat_map (Sha256.be_bytes 4) l) = (4 * length l)%nat) as Hf.
  { induction l as [| x l IHl]; [reflexivity |].
    cbn [flat_map length]. rewrite length_app, be_bytes_length, IHl. lia. }
  rewrite Hf, Hh. reflexivity.
Qed.

(** [compute_signature] with a secret: always [Ok], the 64 lowercase hex
    digits of HMAC-SHA256 of the body under the secret. *)
Lemma compute_signature_some (a : Authentication) (url body : string) :
  compute_signature (mkClient (Some a) url) body
  = Returns (Ok (lower_hex (Sha256.hmac (as_bytes (api_secret a)) (as_bytes body)))).
Proof. reflexivity. Qed.

Lemma hmac_hex_shape (key msg : list Z) :
  all_lower_hex (lower_hex (Sha256.hmac key msg)) = true
  /\ String.length (lower_hex (Sha256.hmac key msg)) = 64%nat.
Proof.
  split.
  - apply lower_hex_all, hash_bytes.
  - rewrite lower_hex_length. unfold Sha256.hmac. rewrite hash_length. reflexivity.
Qed.

(** C1 (amended). On a client built without credentials ([auth = None])
    the signing path does not return an error: [compute_signature], and
    [sign_form] through it, panic at [self.auth.as_ref().unwrap()]. With
    credentials present both always return [Ok]: HMAC accepts a secret of
    any length, so the [hmac:] error is never produced. *)
Theorem signing_panics_without_credentials
    (url body : string) (form : option string) (timestamp : N) :
  compute_signature (mkClient None url) body
    = Panics "called `Option::unwrap()` on a `None` value"
  /\ sign_form (mkClient None url) form timestamp
    = Panics "called `Option::unwrap()` on a `None` value"
  /\ (forall a : Authentication,
        (exists signature, compute_signature (mkClient (Some a) url) body = Returns (Ok signature))
        /\ (exists signed, sign_form (mkClient (Some a) url) form timestamp = Returns (Ok signed))).
Proof.
  split; [reflexivity |]. split; [reflexivity |].
  intros a. split; eexists; reflexivity.
Qed.

(** C1 (counterexample). An unauthenticated futures client asked to sign
    ["symbol=BTCUSDT"] panics; no [Err] value is returned. *)
Lemma signing_without_credentials_is_a_panic :
  compute_signature (mkClient None "https://fapi.binance.com") "symbol=BTCUSDT"
    = Panics "called `Option::unwrap()` on a `None` value"
  /\ ~ (exists e, compute_signature (mkClient None "https://fapi.binance.com") "symbol=BTCUSDT"
                  = Returns (Err e)).
Proof.
  split; [reflexivity |].
  intros [e He]. discriminate He.
Qed.

(** C4. With credentials, [sign_form] returns exactly
    [base ++ "&signature=" ++ sig] where [base] is the form (or the empty
    string) followed by ["&recvWindow=1000"] and ["&timestamp="] with the
    timestamp read by the call, and [sig] is the lowercase hexadecimal
    HMAC-SHA256 of exactly [base] under the secret (64 hex digits). *)
Theorem sign_form_signs_the_sent_string
    (a : Authentication) (url : string) (form : option string) (timestamp : N) :
  let base := unwrap_or form EmptyString ++ "&recvWindow=1000" ++ "&timestamp=" ++ decimal timestamp in
  let sig := lower_hex (Sha256.hmac (as_bytes (api_secret a)) (as_bytes base)) in
  sign_form (mkClient (Some a) url) form timestamp
    = Returns (Ok (base ++ "&signature=" ++ sig))
  /\ all_lower_hex sig = true
  /\ String.length sig = 64%nat.
Proof.
  intros base sig.
  split; [reflexivity |].
  apply hmac_hex_shape.
Qed.

(* ------------------------------------------------------------------ *)
(** ** The response decoder *)

(** C2 (amended). [decode_response] treats only status 200 as success:
    there it returns the value deserialized from the body, or a [Decode]
    error carrying the parse error and the body unchanged. Every other
    status (other 2xx codes included) gives an [ApiError]: the body's own
    when it deserializes as one, otherwise one made up with the status as
    [code], the raw body as [msg] and no other fields. *)
Theorem decode_response_classifies
    (json_from_str : string -> result Value serde_error)
    (T : Type) (from_str_T : string -> result T serde_error)
    (status : N) (body : string) :
  (status = 200%N ->
     (forall v, from_str_T body = Ok v ->
        decode_response json_from_str from_str_T status body = Ok v)
     /\ (forall error, from_str_T body = Err error ->
        decode_response json_from_str from_str_T status body = Err (Error.Decode error body)))
  /\ (status <> 200%N ->
     exists a : ApiError,
       decode_response json_from_str from_str_T status body = Err (Error.ApiError a)
       /\ (api_error_from_str json_from_str body = Ok a
           \/ ((exists e, api_error_from_str json_from_str body = Err e)
               /\ a = synthesized_api_error status body))).
Proof.
  unfold decode_response. split.
  - intros ->. split; intros x Hx; rewrite Hx; reflexivity.
  - intros Hne.
    assert ((status =? StatusCode_OK)%N = false) as -> by (apply N.eqb_neq; exact Hne).
    destruct (api_error_from_str json_from_str body) as [a | e] eqn:Hapi.
    + exists a. auto.
    + exists (synthesized_api_error status body). split; [reflexivity |].
      right. split; [exists e; reflexivity | reflexivity].
Qed.

(** C2 (counterexample). A 201 (Created) response whose body is a valid
    [T = Value] is not returned as the value: the decoder answers with an
    [ApiError] made up from the status. *)
Lemma decode_response_201_is_an_error :
  Json.from_str (jtext "{'orderId':1}") = Ok (Object [("orderId", Number 1)])
  /\ decode_response Json.from_str Json.from_str 201 (jtext "{'orderId':1}")
     = Err (Error.ApiError (mkApiError 201 (jtext "{'orderId':1}") [])).
Proof. split; vm_compute; reflexivity. Qed.

(* ------------------------------------------------------------------ *)
(** ** The futures stream decoder *)

Section FuturesFacts.

Variable sch : Futures.Schema.
Variable json_from_str : string -> result Value serde_error.

Lemma some_event_not_message {A} (ctor : A -> Futures.Event sch) r ev :
  (forall a, Futures.is_message (ctor a) = false) ->
  Futures.some_event ctor r = Ok (Some ev) -> Futures.is_message ev = false.
Proof.
  intros Hctor H. destruct r as [a | e]; simpl in H; inversion H; subst. apply Hctor.
Qed.

Lemma decode_data_not_message v ev :
  Futures.decode_data sch v = Ok (Some ev) -> Futures.is_message ev = false.
Proof.
  unfold Futures.decode_data. destruct (as_str (index v "e")) as [e |]; [| discriminate].
  repeat match goal with
         | |- (if ?c then _ else _) = _ -> _ => destruct c
         end;
    try discriminate;
    apply some_event_not_message; reflexivity.
Qed.

Lemma decode_value_not_message v ev :
  Futures.decode_value sch v = Ok (Some ev) -> Futures.is_message ev = false.
Proof.
  unfold Futures.decode_value.
  destruct (_ && _); [apply decode_data_not_message |].
  destruct (is_string (index v "e")); [apply decode_data_not_message | discriminate].
Qed.

Lemma decode_text_not_message t :
  Futures.is_message (Futures.decode_text sch json_from_str t) = false.
Proof.
  unfold Futures.decode_text. destruct (json_from_str t) as [v | e]; [| reflexivity].
  destruct (Futures.decode_value sch v) as [[ev |] | e] eqn:Hd; try reflexivity.
  exact (decode_value_not_message v ev Hd).
Qed.

Lemma decode_data_unknown v d :
  as_str (index v "e") = Some d -> ~ In d (Futures.known_events) ->
  Futures.decode_data sch v = Ok None.
Proof.
  intros Hd Hnot. unfold Futures.decode_data. rewrite Hd.
  unfold Futures.known_events in Hnot. simpl in Hnot.
  repeat match goal with
         | |- (if String.eqb d ?k then _ else _) = _ =>
             let H := fresh in
             destruct (String.eqb_spec d k) as [H | _];
             [exfalso; apply Hnot; subst; tauto |]
         end.
  reflexivity.
Qed.

Lemma as_str_is_string v d : as_str v = Some d -> is_string v = true.
Proof. destruct v; simpl; congruence. Qed.

Lemma decode_message_forwarded m :
  forwarded m = true -> exists ev, Futures.decode_message sch json_from_str m = Returns ev.
Proof. destruct m; simpl; try discriminate; intros _; eexists; reflexivity. Qed.

Lemma next_skip m rest :
  forwarded m = false ->
  Futures.next sch json_from_str (Ok m :: rest) = Futures.next sch json_from_str rest.
Proof. intros H. simpl. rewrite H. reflexivity. Qed.

Lemma next_returns ws : exists r, Futures.next sch json_from_str ws = Returns r.
Proof.
  induction ws as [| [m | err] rest IH]; simpl.
  - eexists; reflexivity.
  - destruct (forwarded m) eqn:Hf; [| exact IH].
    destruct (decode_message_forwarded m Hf) as [ev ->]. eexists; reflexivity.
  - eexists; reflexivity.
Qed.

Lemma next_text t rest :
  Futures.next sch json_from_str (Ok (Text t) :: rest)
  = Returns (Some (Ok (Futures.decode_text sch json_from_str t)), rest).
Proof. reflexivity. Qed.

Lemma drain_texts (ts : list string) (k : nat) :
  Futures.drain sch json_from_str (length ts + k) (map (fun t => Ok (Text t)) ts)
  = Returns (map (fun t => Ok (Futures.decode_text sch json_from_str t)) ts).
Proof.
  induction ts as [| t ts IH]; simpl.
  - destruct k; reflexivity.
  - rewrite IH. reflexivity.
Qed.

End FuturesFacts.

(** C6. Every text frame gives exactly one event: a consumer calling
    [next] over any run of text frames is handed one [Ok] event per frame,
    in order, and nothing else (no panic, no error, no frame lost, the
    loop carrying on to the following frames); [next] on a text frame
    consumes exactly that frame. A text that is not valid JSON gives
    [ParseError] with the parser's error text and the original text. *)
Theorem text_frames_give_one_event_each
    (sch : Futures.Schema) (json_from_str : string -> result Value serde_error) :
  (forall (ts : list string) (k : nat),
     Futures.drain sch json_from_str (length ts + k) (map (fun t => Ok (Text t)) ts)
     = Returns (map (fun t => Ok (Futures.decode_text sch json_from_str t)) ts))
  /\ (forall t rest,
     Futures.next sch json_from_str (Ok (Text t) :: rest)
     = Returns (Some (Ok (Futures.decode_text sch json_from_str t)), rest))
  /\ (forall t err, json_from_str t = Err err ->
     Futures.decode_text sch json_from_str t = Futures.ParseError err t).
Proof.
  split; [apply drain_texts |]. split; [apply next_text |].
  intros t err Herr. unfold Futures.decode_text. rewrite Herr. reflexivity.
Qed.

(** C7. A frame that parses as JSON and whose discriminator (its ["e"],
    or the ["e"] of [data] in a combined-stream envelope) is a string
    outside kline, aggTrade, ORDER_TRADE_UPDATE, ACCOUNT_UPDATE,
    forceOrder and 24hrTicker decodes to [Unknown] with the original
    text. *)
Theorem unrecognised_discriminator_is_unknown
    (sch : Futures.Schema) (json_from_str : string -> result Value serde_error)
    (t : string) (v : Value) (d : string)
    (Hparse : json_from_str t = Ok v)
    (Hdisc : Futures.discriminator v = Some d)
    (Hnew : ~ In d Futures.known_events) :
  Futures.decode_text sch json_from_str t = Futures.Unknown t.
Proof.
  unfold Futures.decode_text. rewrite Hparse.
  unfold Futures.discriminator in Hdisc. unfold Futures.decode_value.
  destruct (_ && _).
  - rewrite (decode_data_unknown sch _ d Hdisc Hnew). reflexivity.
  - rewrite (as_str_is_string _ _ Hdisc).
    rewrite (decode_data_unknown sch _ d Hdisc Hnew). reflexivity.
Qed.

(** C7 (witness): the frame [{"e":"somethingNew"}] on a concrete schema. *)
Lemma unrecognised_discriminator_is_unknown_witness :
  Json.from_str (jtext "{'e':'somethingNew'}") = Ok (Object [("e", VString "somethingNew")])
  /\ Futures.discriminator (Object [("e", VString "somethingNew")]) = Some "somethingNew"
  /\ ~ In "somethingNew" Futures.known_events
  /\ Futures.decode_text open_futures_schema Json.from_str (jtext "{'e':'somethingNew'}")
     = Futures.Unknown (jtext "{'e':'somethingNew'}").
Proof.
  assert (Hp : Json.from_str (jtext "{'e':'somethingNew'}")
               = Ok (Object [("e", VString "somethingNew")])) by (vm_compute; reflexivity).
  assert (Hd : Futures.discriminator (Object [("e", VString "somethingNew")])
               = Some "somethingNew") by reflexivity.
  assert (Hn : ~ In "somethingNew" Futures.known_events)
    by (simpl; intros H; repeat (destruct H as [H | H]; [discriminate |]); exact H).
  split; [exact Hp |]. split; [exact Hd |]. split; [exact Hn |].
  exact (unrecognised_discriminator_is_unknown open_futures_schema Json.from_str
           _ _ _ Hp Hd Hn).
Defined.

(** C8. The receive loop skips every frame that is not text or ping
    (binary, pong, close) and reads on; text and ping frames, the only
    ones it hands to [decode_message], never reach its [unreachable!()]
    arm, so [next] never panics; and an event [next] delivers comes from
    decoding a text or ping frame, every frame read before it having been
    skipped. *)
Theorem receive_loop_forwards_only_text_and_ping
    (sch : Futures.Schema) (json_from_str : string -> result Value serde_error) :
  (forall m rest, forwarded m = false ->
     Futures.next sch json_from_str (Ok m :: rest) = Futures.next sch json_from_str rest)
  /\ (forall m, forwarded m = true ->
     exists ev, Futures.decode_message sch json_from_str m = Returns ev)
  /\ (forall ws, exists r, Futures.next sch json_from_str ws = Returns r)
  /\ (forall ws ev rest,
     Futures.next sch json_from_str ws = Returns (Some (Ok ev), rest) ->
     exists skipped m,
       ws = (skipped ++ Ok m :: rest)%list
       /\ forwarded m = true
       /\ Futures.decode_message sch json_from_str m = Returns ev
       /\ Forall (fun x => exists m', x = Ok m' /\ forwarded m' = false) skipped).
Proof.
  split; [apply next_skip |]. split; [apply decode_message_forwarded |].
  split; [apply next_returns |].
  induction ws as [| [m | err] ws IH]; intros ev rest Hnext; simpl in Hnext.
  - discriminate.
  - destruct (forwarded m) eqn:Hf.
    + destruct (decode_message_forwarded sch json_from_str m Hf) as [ev' Hdec].
      rewrite Hdec in Hnext. inversion Hnext; subst.
      exists [], m. auto.
    + destruct (IH ev rest Hnext) as [skipped [m' [-> [Hf' [Hdec Hall]]]]].
      exists (Ok m :: skipped), m'. repeat split; auto.
      constructor; [exists m; auto | exact Hall].
  - discriminate.
Qed.

(** C10. The futures decoder never produces the raw [Message] variant:
    not from a text frame, not from any frame [decode_message] accepts,
    and [next] never delivers one. *)
Theorem futures_never_yields_raw_message
    (sch : Futures.Schema) (json_from_str : string -> result Value serde_error) :
  (forall t, Futures.is_message (Futures.decode_text sch json_from_str t) = false)
  /\ (forall m ev, Futures.decode_message sch json_from_str m = Returns ev ->
        Futures.is_message ev = false)
  /\ (forall ws, match Futures.next sch json_from_str ws with
                 | Returns (Some (Ok ev), _) => Futures.is_message ev = false
                 | _ => True
                 end).
Proof.
  assert (Hdec : forall m ev, Futures.decode_message sch json_from_str m = Returns ev ->
                   Futures.is_message ev = false).
  { intros m ev H. destruct m; simpl in H; inversion H; subst;
      [apply decode_text_not_message | reflexivity]. }
  split; [apply decode_text_not_message |]. split; [exact Hdec |].
  induction ws as [| [m | err] ws IH]; simpl; [exact I | | exact I].
  destruct (forwarded m); [| exact IH].
  destruct (Futures.decode_message sch json_from_str m) as [ev |] eqn:H; [| exact I].
  exact (Hdec m ev H).
Qed.

(** C5 (amended). For an inner object [D] whose ["e"] is a string and
    which is not itself envelope-shaped (a string ["stream"] together with
    a string ["e"] under ["data"]), [decode_value] gives the same result on
    [{"stream": s, "data": D}] as on [D]; hence a text frame carrying the
    envelope and one carrying [D] decode to the same event whenever [D] is
    classified. (The [Unknown] and [ParseError] fallbacks carry each
    frame's own text, so there the two frames give different events.) *)
Theorem envelope_decodes_as_inner_object
    (sch : Futures.Schema) (json_from_str : string -> result Value serde_error)
    (s : string) (D : Value)
    (He : is_string (index D "e") = true)
    (Hbare : is_string (index D "stream") && is_string (index (index D "data") "e") = false) :
  Futures.decode_value sch (combined_envelope s D) = Futures.decode_value sch D
  /\ (forall te tb ev,
        json_from_str te = Ok (combined_envelope s D) ->
        json_from_str tb = Ok D ->
        Futures.decode_value sch D = Ok (Some ev) ->
        Futures.decode_text sch json_from_str te = ev
        /\ Futures.decode_text sch json_from_str tb = ev).
Proof.
  assert (Hv : Futures.decode_value sch (combined_envelope s D) = Futures.decode_value sch D).
  { unfold Futures.decode_value at 1. simpl index. rewrite He. simpl.
    unfold Futures.decode_value. rewrite Hbare, He. reflexivity. }
  split; [exact Hv |].
  intros te tb ev Hte Htb Hev. unfold Futures.decode_text.
  rewrite Hte, Htb, Hv, Hev. split; reflexivity.
Qed.

(** C5 (witness): an aggTrade object and its envelope on a concrete
    schema. *)
Lemma envelope_decodes_as_inner_object_witness :
  is_string (index (Object [("e", VString "aggTrade"); ("a", Number 5)]) "e") = true
  /\ is_string (index (Object [("e", VString "aggTrade"); ("a", Number 5)]) "stream")
     && is_string (index (index (Object [("e", VString "aggTrade"); ("a", Number 5)]) "data") "e")
     = false
  /\ Futures.decode_text open_futures_schema Json.from_str
       (jtext "{'stream':'x@aggTrade','data':{'e':'aggTrade','a':5}}")
     = Futures.decode_text open_futures_schema Json.from_str (jtext "{'e':'aggTrade','a':5}").
Proof.
  assert (He : is_string (index (Object [("e", VString "aggTrade"); ("a", Number 5)]) "e") = true)
    by reflexivity.
  assert (Hb : is_string (index (Object [("e", VString "aggTrade"); ("a", Number 5)]) "stream")
     && is_string (index (index (Object [("e", VString "aggTrade"); ("a", Number 5)]) "data") "e")
     = false) by reflexivity.
  split; [exact He |]. split; [exact Hb |].
  destruct (proj2 (envelope_decodes_as_inner_object open_futures_schema Json.from_str
                     "x@aggTrade" _ He Hb)
              (jtext "{'stream':'x@aggTrade','data':{'e':'aggTrade','a':5}}")
              (jtext "{'e':'aggTrade','a':5}")
              (Futures.AggTrade (sch := open_futures_schema)
                 (Object [("e", VString "aggTrade"); ("a", Number 5)])))
    as [H1 H2]; [vm_compute; reflexivity .. |].
  rewrite H1, H2. reflexivity.
Defined.

(** C5 (counterexample). An envelope around [{"e":"somethingNew"}] and
    the bare object decode to [Unknown] events carrying different texts;
    and an inner object that itself has ["stream"] and ["data"."e"] is
    classified by its own ["e"] inside the envelope but by its ["data"]
    when bare. *)
Lemma envelope_and_bare_object_differ :
  Futures.decode_text open_futures_schema Json.from_str
    (jtext "{'stream':'x@aggTrade','data':{'e':'somethingNew'}}")
  <> Futures.decode_text open_futures_schema Json.from_str (jtext "{'e':'somethingNew'}")
  /\ Futures.decode_value open_futures_schema
       (combined_envelope "x@aggTrade"
          (Object [("e", VString "aggTrade"); ("stream", VString "y");
                   ("data", Object [("e", VString "kline")])]))
     <> Futures.decode_value open_futures_schema
          (Object [("e", VString "aggTrade"); ("stream", VString "y");
                   ("data", Object [("e", VString "kline")])]).
Proof. split; vm_compute; discriminate. Qed.

(* ------------------------------------------------------------------ *)
(** ** The spot stream decoder *)

(** C9. The spot decoder classifies a frame only when it is a text frame
    that parses as JSON with ["e"] equal to "executionReport" or
    "outboundAccountPosition" and whose typed deserialization succeeds;
    every other frame (invalid JSON, no string ["e"], any other
    discriminator such as kline or aggTrade, a failed deserialization, a
    ping) comes back as [Message] wrapping the frame itself. *)
Theorem spot_decoder_classifies_two_kinds
    (sch : Spot.Schema) (json_from_str : string -> result Value serde_error) :
  (forall m,
     Spot.decode_event sch json_from_str m = Spot.Message m
     \/ exists s v, m = Text s /\ json_from_str s = Ok v
        /\ ((as_str (index v "e") = Some "executionReport"
             /\ exists r, Spot.execution_report_of_value sch v = Ok r
                  /\ Spot.decode_event sch json_from_str m = Spot.ExecutionReport r)
            \/ (as_str (index v "e") = Some "outboundAccountPosition"
             /\ exists r, Spot.account_update_of_value sch v = Ok r
                  /\ Spot.decode_event sch json_from_str m = Spot.AccountUpdate r)))
  /\ (forall s v r, json_from_str s = Ok v ->
        as_str (index v "e") = Some "executionReport" ->
        Spot.execution_report_of_value sch v = Ok r ->
        Spot.decode_event sch json_from_str (Text s) = Spot.ExecutionReport r)
  /\ (forall s v r, json_from_str s = Ok v ->
        as_str (index v "e") = Some "outboundAccountPosition" ->
        Spot.account_update_of_value sch v = Ok r ->
        Spot.decode_event sch json_from_str (Text s) = Spot.AccountUpdate r).
Proof.
  split; [| split].
  - intros m. destruct m as [s | | | |]; try (left; reflexivity).
    destruct (json_from_str s) as [v | e] eqn:Hp; [| left; simpl; rewrite Hp; reflexivity].
    destruct (as_str (index v "e")) as [d |] eqn:Hd;
      [| left; simpl; rewrite Hp, Hd; reflexivity].
    destruct (String.eqb_spec d "executionReport") as [-> | Hne1].
    + destruct (Spot.execution_report_of_value sch v) as [r | e] eqn:Hr.
      * right. exists s, v. split; [reflexivity |]. split; [exact Hp |].
        left. split; [exact Hd |]. exists r. split; [exact Hr |].
        simpl. rewrite Hp, Hd. simpl. unfold Spot.decode_value. rewrite Hd. simpl.
        rewrite Hr. reflexivity.
      * left. simpl. rewrite Hp, Hd. simpl. unfold Spot.decode_value. rewrite Hd. simpl.
        rewrite Hr. reflexivity.
    + destruct (String.eqb_spec d "outboundAccountPosition") as [-> | Hne2].
      * destruct (Spot.account_update_of_value sch v) as [r | e] eqn:Hr.
        -- right. exists s, v. split; [reflexivity |]. split; [exact Hp |].
           right. split; [exact Hd |]. exists r. split; [exact Hr |].
           simpl. rewrite Hp, Hd. simpl. unfold Spot.decode_value. rewrite Hd. simpl.
           rewrite Hr. reflexivity.
        -- left. simpl. rewrite Hp, Hd. simpl. unfold Spot.decode_value. rewrite Hd. simpl.
           rewrite Hr. reflexivity.
      * left. simpl. rewrite Hp, Hd. simpl. unfold Spot.decode_value. rewrite Hd.
        apply String.eqb_neq in Hne1, Hne2. rewrite Hne1, Hne2. reflexivity.
  - intros s v r Hp Hd Hr. simpl. rewrite Hp, Hd. simpl.
    unfold Spot.decode_value. rewrite Hd. simpl. rewrite Hr. reflexivity.
  - intros s v r Hp Hd Hr. simpl. rewrite Hp, Hd. simpl.
    unfold Spot.decode_value. rewrite Hd. simpl. rewrite Hr. reflexivity.
Qed.

(* ------------------------------------------------------------------ *)
(** ** Kline intervals *)

Lemma interval_from_str_other (s : string) :
  ~ In s Interval.names -> Interval.from_str_non_strict s = Interval.Other s.
Proof.
  intros Hout. unfold Interval.from_str_non_strict.
  repeat match goal with
         | |- context [String.eqb s ?k] =>
             destruct (String.eqb_spec s k) as [-> | _]; [exfalso; apply Hout; simpl; tauto |]
         end.
  reflexivity.
Qed.

Lemma interval_from_str_other_iff (s : string) :
  (exists k, Interval.from_str_non_strict s = Interval.Other k) <-> ~ In s Interval.names.
Proof.
  split.
  - intros [k Hk] Hin. simpl in Hin.
    destruct Hin as [<- | [<- | [<- | [<- | [<- | [<- | []]]]]]]; vm_compute in Hk; discriminate Hk.
  - intros Hout. exists s. apply interval_from_str_other. exact Hout.
Qed.

Lemma interval_seconds_zero (i : Interval.t) :
  Interval.to_seconds i = 0%Z <-> exists k, i = Interval.Other k.
Proof.
  destruct i as [| | | | | | k]; simpl;
    try (split; [intros H; discriminate H | intros [k' Hk]; discriminate Hk]).
  split; [intros _; exists k; reflexivity | intros _; reflexivity].
Qed.

(** [Interval::fmt] undoes [Interval::from_str_non_strict]: displaying
    the interval parsed from any string gives that string back, whether
    it named one of the six intervals or fell through to [Other]. *)
Theorem interval_display_inverts_parse (s : string) :
  Interval.fmt (Interval.from_str_non_strict s) = s.
Proof.
  unfold Interval.from_str_non_strict.
  repeat match goal with
         | |- context [String.eqb s ?k] =>
             destruct (String.eqb_spec s k) as [-> | _]; [reflexivity |]
         end.
  reflexivity.
Qed.

(** Parsing the display of an interval gives the interval back exactly
    when it is not an [Other] carrying one of the six recognised names
    ("1m", "3m", "5m", "15m", "1h", "4h"): [Other "1h"] displays as "1h"
    and comes back as [OneHour]. *)
Theorem interval_parse_inverts_display (i : Interval.t) :
  Interval.from_str_non_strict (Interval.fmt i) = i
  <-> (forall k, i = Interval.Other k -> ~ In k Interval.names).
Proof.
  destruct i as [| | | | | | k];
    try (split; [intros _ k' H; discriminate H | intros _; reflexivity]).
  simpl. destruct (in_dec string_dec k Interval.names) as [Hin | Hout].
  - split.
    + intros H. exfalso. simpl in Hin.
      destruct Hin as [<- | [<- | [<- | [<- | [<- | [<- | []]]]]]]; vm_compute in H; discriminate H.
    + intros H. exfalso. exact (H k eq_refl Hin).
  - split.
    + intros _ k' H. injection H as <-. exact Hout.
    + intros _. apply interval_from_str_other. exact Hout.
Qed.

(** [Interval::to_millis] never overflows: it is [to_seconds * 1000] for
    every interval. [to_seconds] lies between 0 and 14400 (four hours),
    and is 0 exactly for [Other]; so a string that [from_str_non_strict]
    does not recognise gets length 0. *)
Theorem interval_length_and_millis (i : Interval.t) (s : string) :
  Interval.to_millis i = Returns (Interval.to_seconds i * 1000)%Z
  /\ (0 <= Interval.to_seconds i <= 14400)%Z
  /\ (Interval.to_seconds i = 0%Z <-> exists k, i = Interval.Other k)
  /\ (Interval.to_seconds (Interval.from_str_non_strict s) = 0%Z <-> ~ In s Interval.names).
Proof.
  split; [| split; [| split]].
  - destruct i; reflexivity.
  - destruct i; simpl; lia.
  - apply interval_seconds_zero.
  - rewrite interval_seconds_zero. apply interval_from_str_other_iff.
Qed.

(* ------------------------------------------------------------------ *)
(** ** Stream names *)

Lemma ascii_lower_upper (c : ascii) : ascii_lower (ascii_upper c) = ascii_lower c.
Proof. destruct c as [[] [] [] [] [] [] [] []]; reflexivity. Qed.

Lemma ascii_lower_lower (c : ascii) : ascii_lower (ascii_lower c) = ascii_lower c.
Proof. destruct c as [[] [] [] [] [] [] [] []]; reflexivity. Qed.

Lemma ascii_upper_lower (c : ascii) : ascii_upper (ascii_lower c) = ascii_upper c.
Proof. destruct c as [[] [] [] [] [] [] [] []]; reflexivity. Qed.

Lemma ascii_upper_upper (c : ascii) : ascii_upper (ascii_upper c) = ascii_upper c.
Proof. destruct c as [[] [] [] [] [] [] [] []]; reflexivity. Qed.

Lemma map_chars_map_chars (f g : ascii -> ascii) (s : string) :
  map_chars f (map_chars g s) = map_chars (fun c => f (g c)) s.
Proof. induction s as [| c r IH]; simpl; [reflexivity | rewrite IH; reflexivity]. Qed.

Lemma map_chars_ext (f g : ascii -> ascii) (s : string) :
  (forall c, f c = g c) -> map_chars f s = map_chars g s.
Proof.
  intros H. induction s as [| c r IH]; simpl; [reflexivity | rewrite H, IH; reflexivity].
Qed.

Lemma to_lowercase_upper (s : string) : to_lowercase (to_uppercase s) = to_lowercase s.
Proof.
  unfold to_lowercase, to_uppercase. rewrite map_chars_map_chars.
  apply map_chars_ext, ascii_lower_upper.
Qed.

Lemma to_lowercase_lower (s : string) : to_lowercase (to_lowercase s) = to_lowercase s.
Proof.
  unfold to_lowercase. rewrite map_chars_map_chars. apply map_chars_ext, ascii_lower_lower.
Qed.

Lemma to_uppercase_lower (s : string) : to_uppercase (to_lowercase s) = to_uppercase s.
Proof.
  unfold to_lowercase, to_uppercase. rewrite map_chars_map_chars.
  apply map_chars_ext, ascii_upper_lower.
Qed.

Lemma to_uppercase_upper (s : string) : to_uppercase (to_uppercase s) = to_uppercase s.
Proof.
  unfold to_uppercase. rewrite map_chars_map_chars. apply map_chars_ext, ascii_upper_upper.
Qed.

(** The stream names of [src/common/websocket.rs] do not depend on the case
    of an ASCII symbol: "BTCUSDT", "btcusdt" and the symbol as given all
    name the same trade, aggregate-trade, kline, liquidation and ticker
    streams. *)
Theorem stream_names_ignore_symbol_case (s interval : string) (Hascii : is_ascii s = true) :
  Forall (fun name : string -> string =>
            name (to_uppercase s) = name s /\ name (to_lowercase s) = name s)
    [stream_name_trade; stream_name_aggtrade; (fun x => stream_name_kline x interval);
     stream_name_liquidation; stream_name_ticker].
Proof.
  repeat constructor;
    unfold stream_name_trade, stream_name_aggtrade, stream_name_kline,
      stream_name_liquidation, stream_name_ticker;
    rewrite ?to_lowercase_upper, ?to_lowercase_lower; reflexivity.
Qed.

Lemma stream_names_ignore_symbol_case_witness :
  is_ascii "BTCUSDT" = true
  /\ Forall (fun name : string -> string =>
               name (to_uppercase "BTCUSDT") = name "BTCUSDT"
               /\ name (to_lowercase "BTCUSDT") = name "BTCUSDT")
       [stream_name_trade; stream_name_aggtrade; (fun x => stream_name_kline x "1m");
        stream_name_liquidation; stream_name_ticker].
Proof.
  split; [reflexivity |].
  apply (stream_names_ignore_symbol_case "BTCUSDT" "1m"). reflexivity.
Defined.

(* ------------------------------------------------------------------ *)
(** ** Combined-stream URLs and forms *)

Lemma string_app_assoc (a b c : string) : a ++ (b ++ c) = (a ++ b) ++ c.
Proof. induction a as [| x r IH]; simpl; [reflexivity | rewrite IH; reflexivity]. Qed.

Lemma no_char_app (c : ascii) (a b : string) :
  no_char c (a ++ b) = (no_char c a && no_char c b)%bool.
Proof.
  unfold no_char. induction a as [| x r IH]; simpl; [reflexivity |].
  rewrite IH, andb_assoc. reflexivity.
Qed.

Lemma split_char_no (c : ascii) (a : string) :
  no_char c a = true -> split_char c a = [a].
Proof.
  unfold no_char. induction a as [| x r IH]; simpl; intros H; [reflexivity |].
  apply andb_prop in H as [Hx Hr]. rewrite IH by exact Hr.
  destruct (Ascii.eqb x c); [discriminate | reflexivity].
Qed.

Lemma split_char_app (c : ascii) (a b : string) :
  no_char c a = true -> split_char c (a ++ String c b) = a :: split_char c b.
Proof.
  unfold no_char. induction a as [| x r IH]; simpl; intros H.
  - rewrite Ascii.eqb_refl. reflexivity.
  - apply andb_prop in H as [Hx Hr]. rewrite IH by exact Hr.
    destruct (Ascii.eqb x c); [discriminate | reflexivity].
Qed.

Lemma split_join (c : ascii) (l : list string) :
  l <> [] -> Forall (fun x => no_char c x = true) l ->
  split_char c (join (String c EmptyString) l) = l.
Proof.
  induction l as [| x [| y r] IH]; intros Hne Hall.
  - contradiction.
  - inversion Hall; subst. apply split_char_no. assumption.
  - inversion Hall; subst.
    change (join (String c EmptyString) (x :: y :: r))
      with (x ++ String c (join (String c EmptyString) (y :: r))).
    rewrite split_char_app by assumption.
    rewrite IH; [reflexivity | discriminate | assumption].
Qed.

Lemma split_once_app (c : ascii) (a b : string) :
  no_char c a = true -> split_once c (a ++ String c b) = Some (a, b).
Proof.
  unfold no_char. induction a as [| x r IH]; simpl; intros H.
  - rewrite Ascii.eqb_refl. reflexivity.
  - apply andb_prop in H as [Hx Hr]. rewrite IH by exact Hr.
    destruct (Ascii.eqb x c); [discriminate | reflexivity].
Qed.

Lemma join_cons_app (sep a b : string) (l : list string) :
  join sep ((a ++ sep ++ b) :: l) = a ++ sep ++ join sep (b :: l).
Proof.
  destruct l as [| y l]; [reflexivity |].
  change (join sep ((a ++ sep ++ b) :: y :: l)) with ((a ++ sep ++ b) ++ sep ++ join sep (y :: l)).
  change (join sep (b :: y :: l)) with (b ++ sep ++ join sep (y :: l)).
  rewrite <- !string_app_assoc. reflexivity.
Qed.

Lemma str_is_empty_app (a b : string) :
  str_is_empty a = false -> str_is_empty (a ++ b) = false.
Proof. destruct a; simpl; congruence. Qed.

Lemma build_form_fold (vals : list (string * string)) (buf : string) :
  str_is_empty buf = false ->
  fold_left
    (fun buf kv =>
       let buf := if negb (str_is_empty buf) then buf ++ "&" else buf in
       buf ++ fst kv ++ "=" ++ snd kv)
    vals buf
  = join "&" (buf :: map (fun kv => fst kv ++ "=" ++ snd kv) vals).
Proof.
  revert buf. induction vals as [| kv vals IH]; intros buf Hbuf; [reflexivity |].
  cbn [fold_left map]. rewrite IH.
  - rewrite Hbuf. simpl negb. cbv iota. rewrite <- string_app_assoc.
    apply join_cons_app.
  - rewrite Hbuf. apply str_is_empty_app. apply str_is_empty_app. exact Hbuf.
Qed.

Lemma read_pairs (l : list (string * string)) :
  Forall (fun kv => no_char "=" (fst kv) = true) l ->
  map (fun p => match split_once "=" p with Some kv => kv | None => (p, EmptyString) end)
      (map (fun kv => fst kv ++ "=" ++ snd kv) l) = l.
Proof.
  induction l as [| [k v] l IH]; intros H; [reflexivity |].
  inversion H as [| ? ? Hk Hl]; subst. simpl.
  rewrite split_once_app by exact Hk. f_equal. apply IH. exact Hl.
Qed.

(** [connect_combined] (futures and spot) asks for the streams it is
    given: the query after [/stream?streams=] splits on '/' into exactly
    that list, in order, when the list is not empty and no name contains
    a '/'. *)
Theorem combined_stream_url_lists_streams (base : string) (streams : list string)
    (Hne : streams <> []) (Hslash : Forall (fun s => no_char "/" s = true) streams) :
  exists query, connect_combined_url base streams = base ++ "/stream?streams=" ++ query
    /\ split_char "/" query = streams.
Proof.
  exists (join "/" streams). split; [reflexivity |].
  apply split_join; assumption.
Qed.

Lemma combined_stream_url_lists_streams_witness :
  ["btcusdt@aggTrade"; "ethusdt@kline_1m"] <> []
  /\ Forall (fun s => no_char "/" s = true) ["btcusdt@aggTrade"; "ethusdt@kline_1m"]
  /\ exists query,
       connect_combined_url futures_BASE_URL ["btcusdt@aggTrade"; "ethusdt@kline_1m"]
       = futures_BASE_URL ++ "/stream?streams=" ++ query
       /\ split_char "/" query = ["btcusdt@aggTrade"; "ethusdt@kline_1m"].
Proof.
  split; [discriminate | split; [repeat constructor |]].
  apply combined_stream_url_lists_streams; [discriminate | repeat constructor].
Defined.

(** [build_form] writes its pairs as [k=v] joined by '&', in order, with
    no leading or trailing '&' and the empty string for no pairs; when no
    key holds '=' or '&' and no value holds '&', splitting the form on '&'
    and each part at its first '=' gives the pairs back. *)
Theorem build_form_joins_pairs :
  (forall vals, SpotClient.build_form vals
                = join "&" (map (fun kv => fst kv ++ "=" ++ snd kv) vals))
  /\ (forall vals,
        Forall (fun kv => no_char "=" (fst kv) = true /\ no_char "&" (fst kv) = true
                          /\ no_char "&" (snd kv) = true) vals ->
        parse_form (SpotClient.build_form vals) = vals).
Proof.
  assert (Hjoin : forall vals, SpotClient.build_form vals
                  = join "&" (map (fun kv => fst kv ++ "=" ++ snd kv) vals)).
  { intros [| kv vals]; [reflexivity |].
    unfold SpotClient.build_form. cbn [fold_left map].
    simpl str_is_empty. cbv iota beta. simpl append at 1.
    apply build_form_fold. destruct (fst kv); reflexivity. }
  split; [exact Hjoin |].
  intros vals Hsafe. rewrite Hjoin.
  destruct vals as [| kv vals]; [reflexivity |].
  remember (join "&" (map (fun kv => fst kv ++ "=" ++ snd kv) (kv :: vals))) as s eqn:Es.
  destruct s as [| c s'].
  - exfalso. destruct vals; simpl in Es; destruct (fst kv); discriminate Es.
  - unfold parse_form. rewrite Es. rewrite split_join.
    + apply read_pairs.
      eapply Forall_impl; [| exact Hsafe]. intros p [Hk _]. exact Hk.
    + discriminate.
    + apply Forall_map. eapply Forall_impl; [| exact Hsafe].
      intros p [_ [Hk Hv]]. rewrite no_char_app, Hk. simpl. exact Hv.
Qed.

Lemma find_first {A} (f : A -> bool) (l : list A) (x : A) :
  find f l = Some x <->
  exists pre post, l = (pre ++ x :: post)%list /\ f x = true
    /\ forallb (fun y => negb (f y)) pre = true.
Proof.
  induction l as [| y l IH]; simpl.
  - split; [discriminate | intros [pre [post [H _]]]; destruct pre; discriminate H].
  - destruct (f y) eqn:Hy.
    + split.
      * intros H. injection H as <-. exists [], l. simpl. auto.
      * intros [pre [post [Hl [Hx Hpre]]]]. destruct pre as [| z pre]; simpl in Hl, Hpre.
        -- injection Hl as <- _. reflexivity.
        -- injection Hl as <- _. rewrite Hy in Hpre. discriminate Hpre.
    + rewrite IH. split.
      * intros [pre [post [Hl [Hx Hpre]]]]. exists (y :: pre), post.
        rewrite Hl. simpl. rewrite Hy. auto.
      * intros [pre [post [Hl [Hx Hpre]]]]. destruct pre as [| z pre]; simpl in Hl, Hpre.
        -- injection Hl as -> _. congruence.
        -- injection Hl as <- Hl. exists pre, post. rewrite Hy in Hpre. simpl in Hpre. auto.
Qed.

Lemma find_none_iff {A} (f : A -> bool) (l : list A) :
  find f l = None <-> forallb (fun y => negb (f y)) l = true.
Proof.
  induction l as [| y l IH]; simpl; [tauto |].
  destruct (f y); simpl; [split; discriminate | exact IH].
Qed.

Lemma forallb_filter_type (name : string) (l : list SpotClient.SymbolFilter) :
  forallb (fun y => negb (String.eqb (SpotClient.filterType y) name)) l = true
  <-> Forall (fun h => SpotClient.filterType h <> name) l.
Proof.
  rewrite forallb_forall, Forall_forall. split; intros H y Hy; specialize (H y Hy).
  - destruct (String.eqb_spec (SpotClient.filterType y) name); [discriminate H | exact n].
  - destruct (String.eqb_spec (SpotClient.filterType y) name); [contradiction | reflexivity].
Qed.

(** [SymbolInfo::get_filter] returns the first filter of the list whose
    [filterType] is the name asked for, and [None] exactly when no filter
    has that type ([get_lot_size_filter] asks for "LOT_SIZE"). *)
Theorem get_filter_finds_first_match (info : SpotClient.SymbolInfo) (name : string) :
  (forall g, SpotClient.get_filter info name = Some g <->
     exists pre post, SpotClient.filters info = (pre ++ g :: post)%list
       /\ SpotClient.filterType g = name
       /\ Forall (fun h => SpotClient.filterType h <> name) pre)
  /\ (SpotClient.get_filter info name = None <->
        Forall (fun h => SpotClient.filterType h <> name) (SpotClient.filters info)).
Proof.
  unfold SpotClient.get_filter. split.
  - intros g. rewrite find_first. split.
    + intros [pre [post [Hl [Hg Hpre]]]]. exists pre, post.
      rewrite String.eqb_eq in Hg. rewrite forallb_filter_type in Hpre. auto.
    + intros [pre [post [Hl [Hg Hpre]]]]. exists pre, post.
      rewrite String.eqb_eq. rewrite forallb_filter_type. auto.
  - rewrite find_none_iff. apply forallb_filter_type.
Qed.

(* ------------------------------------------------------------------ *)
(** ** Field deserializers *)

(** [parse_bool_string] accepts exactly the JSON strings "true" and
    "false"; a JSON boolean, like any other non-string value, is an
    error. *)
Theorem parse_bool_string_accepts_only_true_false :
  (forall v b, parse_bool_string v = Ok b <-> v = VString (if b then "true" else "false"))
  /\ (forall b, exists e, parse_bool_string (Bool b) = Err e).
Proof.
  split; [| intros b; eexists; reflexivity].
  intros v b. destruct v as [| b' | n | s | l | m];
    try (split; intros H; discriminate H).
  unfold parse_bool_string, deserialize_string, bool_from_str.
  destruct (String.eqb_spec s "true") as [-> | H1].
  { destruct b; split; intros H; first [reflexivity | discriminate H]. }
  destruct (String.eqb_spec s "false") as [-> | H2].
  { destruct b; split; intros H; first [reflexivity | discriminate H]. }
  split; [intros H; discriminate H |].
  intros H. injection H as Hs. destruct b; contradiction.
Qed.

(** [parse_f64_string] and [parse_opt_f64_string] take only JSON strings,
    whose text [f64::from_str] must accept; a JSON number is refused, and
    [parse_opt_f64_string] never produces [None]. *)
Theorem f64_string_parsers_take_only_strings
    (f64 : Type) (from_str : string -> result f64 string) :
  (forall v x, parse_f64_string f64 from_str v = Ok x
               <-> exists s, v = VString s /\ from_str s = Ok x)
  /\ (forall v o, parse_opt_f64_string f64 from_str v = Ok o
                  <-> exists s x, v = VString s /\ from_str s = Ok x /\ o = Some x).
Proof.
  split.
  - intros v x. destruct v as [| b | n | s | l | m];
      try (split; [intros H; discriminate H | intros [s [H _]]; discriminate H]).
    unfold parse_f64_string, deserialize_string.
    destruct (from_str s) as [y | e] eqn:Hf; split.
    + intros H. injection H as <-. exists s. auto.
    + intros [s' [Hs Hy]]. injection Hs as <-. rewrite Hf in Hy. exact Hy.
    + intros H. discriminate H.
    + intros [s' [Hs Hy]]. injection Hs as <-. rewrite Hf in Hy. discriminate Hy.
  - intros v o. destruct v as [| b | n | s | l | m];
      try (split; [intros H; discriminate H | intros [s [x [H _]]]; discriminate H]).
    unfold parse_opt_f64_string, deserialize_string.
    destruct (from_str s) as [y | e] eqn:Hf; split.
    + intros H. injection H as <-. exists s, y. auto.
    + intros [s' [x [Hs [Hx ->]]]]. injection Hs as <-. rewrite Hf in Hx.
      injection Hx as ->. reflexivity.
    + intros H. discriminate H.
    + intros [s' [x [Hs [Hx _]]]]. injection Hs as <-. rewrite Hf in Hx. discriminate Hx.
Qed.

(** An optional price field ([#[serde(default, deserialize_with =
    "parse_opt_f64_string")]]) is [None] exactly when its key is absent;
    a member that is present but not a JSON string, [null] included, makes
    deserialization fail. *)
Theorem optional_f64_field_defaults_only_when_absent
    (f64 : Type) (from_str : string -> result f64 string)
    (m : list (string * Value)) (key : string) :
  (opt_f64_field f64 from_str m key = Ok None <-> find_key key m = None)
  /\ (forall v, find_key key m = Some v -> (forall s, v <> VString s) ->
        exists e, opt_f64_field f64 from_str m key = Err e).
Proof.
  unfold opt_f64_field. destruct (find_key key m) as [v |].
  - split.
    + split; [| intros H; discriminate H]. intros H. exfalso.
      destruct v; unfold parse_opt_f64_string, deserialize_string in H; try discriminate H.
      destruct (from_str s); discriminate H.
    + intros v' Hv Hns. injection Hv as <-.
      destruct v; try (eexists; reflexivity). exfalso. apply (Hns s). reflexivity.
  - split; [tauto | intros v' H; discriminate H].
Qed.

(* ------------------------------------------------------------------ *)
(** ** Request headers and the listen-key requests *)

Lemma forallb_false_iff {A} (f : A -> bool) (l : list A) :
  forallb f l = false <-> exists x, In x l /\ f x = false.
Proof.
  induction l as [| y l IH]; simpl.
  - split; [discriminate | intros [x [[] _]]].
  - destruct (f y) eqn:Hy; simpl.
    + rewrite IH. split; intros [x [Hx Hfx]].
      * exists x. auto.
      * destruct Hx as [<- | Hx]; [congruence | exists x; auto].
    + split; [intros _; exists y; auto | reflexivity].
Qed.

Lemma header_value_invalid (b : Z) :
  header_value_valid b = false <-> ((b < 32 /\ b <> 9) \/ b = 127)%Z.
Proof.
  unfold header_value_valid.
  destruct (Z.leb_spec 32 b), (Z.eqb_spec b 127), (Z.eqb_spec b 9); simpl;
    split; intros Hb; first [reflexivity | discriminate Hb | lia | exfalso; lia].
Qed.

Lemma headers_some (a : Authentication) (base : string) :
  headers (mkClient (Some a) base)
  = match parse_header_value (api_key a) with
    | Ok v => Ok [("x-mbx-apikey", v); ("content-type", "application/x-www-form-urlencoded")]
    | Err e => Err e
    end.
Proof. unfold headers. simpl. destruct (parse_header_value (api_key a)); reflexivity. Qed.

(** [Client::headers] always sets the form content type and adds the API
    key header exactly when the client has credentials; it fails exactly
    when the key holds a control byte other than tab, or DEL, which
    [HeaderValue] refuses. *)
Theorem headers_send_key_only_when_authenticated (base : string) :
  headers (mkClient None base) = Ok [("content-type", "application/x-www-form-urlencoded")]
  /\ (forall a, (exists e, headers (mkClient (Some a) base) = Err e)
        <-> exists b, In b (as_bytes (api_key a)) /\ ((b < 32 /\ b <> 9) \/ b = 127)%Z)
  /\ (forall a, (forall e, headers (mkClient (Some a) base) <> Err e) ->
        headers (mkClient (Some a) base)
        = Ok [("x-mbx-apikey", api_key a); ("content-type", "application/x-www-form-urlencoded")]).
Proof.
  split; [reflexivity | split].
  - intros a. rewrite headers_some. unfold parse_header_value.
    destruct (forallb header_value_valid (as_bytes (api_key a))) eqn:Hv.
    + split; [intros [e He]; discriminate He | intros [b [Hb Hbad]]].
      exfalso. rewrite forallb_forall in Hv. specialize (Hv b Hb).
      apply header_value_invalid in Hbad. congruence.
    + split; [intros _ | intros _; eexists; reflexivity].
      apply forallb_false_iff in Hv as [b [Hb Hf]]. exists b.
      split; [exact Hb | apply header_value_invalid; exact Hf].
  - intros a H. revert H. rewrite headers_some. unfold parse_header_value.
    destruct (forallb header_value_valid (as_bytes (api_key a))); [reflexivity |].
    intros H. exfalso. eapply H. reflexivity.
Qed.

(** The futures client made by [futures::client::Client::new] hands the
    same credentials to its inner common client, so its own signing and
    headers agree with those of the common client it delegates to, whose
    base URL is the futures API root. *)
Theorem futures_client_signs_as_its_common_client (authentication : option Authentication)
    (body : string) (form : option string) (ts : N) :
  let c := FuturesClient.new authentication in
  FuturesClient.compute_signature c body = compute_signature (FuturesClient.client c) body
  /\ FuturesClient.sign_form c form ts = sign_form (FuturesClient.client c) form ts
  /\ FuturesClient.headers c = headers (FuturesClient.client c)
  /\ base_url (FuturesClient.client c) = FuturesClient.API_ROOT.
Proof. intros c. repeat split. Qed.

(** [put_listenkey] sends the request [post_listenkey] sends (a POST to
    the same URL with the same headers) with the body
    [timestamp=<ms>&signature=<hex HMAC of "timestamp=<ms>">] and no
    [recvWindow]; without credentials it panics before building
    anything, while [post_listenkey] needs no credentials and then sends
    only the content type. *)
Theorem put_listenkey_is_a_signed_post (url_parse : string -> result string string)
    (set_query : string -> option string -> string) (self : Client) (endpoint : string)
    (ts : N) :
  (auth self = None ->
     put_listenkey_request url_parse set_query self endpoint ts
     = Panics "called `Option::unwrap()` on a `None` value")
  /\ (auth self = None -> forall u, url url_parse set_query self endpoint = Ok u ->
        post_listenkey_request url_parse set_query self endpoint
        = Ok (mkRequest POST u None [("content-type", "application/x-www-form-urlencoded")]))
  /\ (forall a, auth self = Some a ->
       put_listenkey_request url_parse set_query self endpoint ts
       = Returns
           (match post_listenkey_request url_parse set_query self endpoint with
            | Ok r =>
                Ok (mkRequest (rq_method r) (rq_url r)
                      (Some (("timestamp=" ++ decimal ts) ++ "&signature="
                             ++ lower_hex (Sha256.hmac (as_bytes (api_secret a))
                                             (as_bytes ("timestamp=" ++ decimal ts)))))
                      (rq_headers r))
            | Err e => Err e
            end))
  /\ (forall r, post_listenkey_request url_parse set_query self endpoint = Ok r ->
        rq_method r = POST /\ rq_body r = None).
Proof.
  split; [| split; [| split]].
  - intros H. unfold put_listenkey_request, compute_signature. rewrite H. reflexivity.
  - intros H u Hu. unfold post_listenkey_request. rewrite Hu.
    unfold headers. rewrite H. reflexivity.
  - intros a H. unfold put_listenkey_request, post_listenkey_request.
    unfold compute_signature at 1. rewrite H. cbn [unwrap new_varkey].
    destruct (url url_parse set_query self endpoint) as [u | e]; [| reflexivity].
    destruct (headers self) as [h | e]; reflexivity.
  - intros r. unfold post_listenkey_request.
    destruct (url url_parse set_query self endpoint) as [u | e]; [| discriminate].
    destruct (headers self) as [h | e]; [| discriminate].
    intros H. injection H as <-. split; reflexivity.
Qed.

(* ------------------------------------------------------------------ *)
(** ** New futures orders *)

(** [NewOrder::new_limit_sell] sets the quantity only when [quantity >
    0.0] holds: zero, negative zero, a negative quantity and NaN leave it
    unset, while [new_limit_buy] and the market orders always set it. Both
    limit orders carry the price and good-till-cancel. *)
Theorem limit_sell_keeps_only_positive_quantity (s : string) (p q : float) :
  FuturesClient.quantity (FuturesClient.new_limit_sell s p q)
    = (if PrimFloat.ltb 0%float q then Some q else None)
  /\ FuturesClient.quantity (FuturesClient.new_limit_sell s p 0%float) = None
  /\ FuturesClient.quantity (FuturesClient.new_limit_sell s p (PrimFloat.opp 0%float)) = None
  /\ FuturesClient.quantity (FuturesClient.new_limit_sell s p (PrimFloat.opp 1%float)) = None
  /\ FuturesClient.quantity (FuturesClient.new_limit_sell s p PrimFloat.nan) = None
  /\ FuturesClient.quantity (FuturesClient.new_limit_buy s p q) = Some q
  /\ FuturesClient.quantity (FuturesClient.new_market_buy s q) = Some q
  /\ FuturesClient.quantity (FuturesClient.new_market_sell s q) = Some q
  /\ FuturesClient.price (FuturesClient.new_limit_sell s p q) = Some p
  /\ FuturesClient.price (FuturesClient.new_limit_buy s p q) = Some p
  /\ FuturesClient.time_in_force (FuturesClient.new_limit_sell s p q) = Some Types.GTC
  /\ FuturesClient.time_in_force (FuturesClient.new_limit_buy s p q) = Some Types.GTC.
Proof.
  repeat split; try reflexivity;
    unfold FuturesClient.new_limit_sell; destruct (PrimFloat.ltb 0%float q); reflexivity.
Qed.

(** Every order constructor stores the symbol upper-cased
    ([symbol.to_uppercase()]), so the case in which an ASCII symbol is
    given does not change the order, and the symbol stored names the
    same streams as the symbol given. *)
Theorem new_orders_carry_the_uppercased_symbol (s : string) (p q : float)
    (sd : SpotClient.OrderSide) (ot : SpotClient.OrderType) (Hascii : is_ascii s = true) :
  Forall (fun o => FuturesClient.symbol o = Some (to_uppercase s))
    [FuturesClient.NewOrder_new s sd ot; FuturesClient.new_market_buy s q;
     FuturesClient.new_market_sell s q; FuturesClient.new_limit_buy s p q;
     FuturesClient.new_limit_sell s p q]
  /\ FuturesClient.NewOrder_new (to_lowercase s) sd ot = FuturesClient.NewOrder_new s sd ot
  /\ FuturesClient.NewOrder_new (to_uppercase s) sd ot = FuturesClient.NewOrder_new s sd ot
  /\ (forall sym, FuturesClient.symbol (FuturesClient.NewOrder_new s sd ot) = Some sym ->
        stream_name_aggtrade sym = stream_name_aggtrade s
        /\ stream_name_trade sym = stream_name_trade s).
Proof.
  split; [| split; [| split]].
  - unfold FuturesClient.new_limit_sell.
    repeat constructor. destruct (PrimFloat.ltb 0%float q); reflexivity.
  - unfold FuturesClient.NewOrder_new. rewrite to_uppercase_lower. reflexivity.
  - unfold FuturesClient.NewOrder_new. rewrite to_uppercase_upper. reflexivity.
  - intros sym H. injection H as <-.
    unfold stream_name_aggtrade, stream_name_trade. rewrite to_lowercase_upper. auto.
Qed.

Lemma new_orders_carry_the_uppercased_symbol_witness :
  is_ascii "btcUsdt" = true
  /\ Forall (fun o => FuturesClient.symbol o = Some (to_uppercase "btcUsdt"))
       [FuturesClient.NewOrder_new "btcUsdt" SpotClient.Buy SpotClient.Limit;
        FuturesClient.new_market_buy "btcUsdt" 1%float;
        FuturesClient.new_market_sell "btcUsdt" 1%float;
        FuturesClient.new_limit_buy "btcUsdt" 2%float 1%float;
        FuturesClient.new_limit_sell "btcUsdt" 2%float 1%float]
  /\ FuturesClient.NewOrder_new (to_lowercase "btcUsdt") SpotClient.Buy SpotClient.Limit
     = FuturesClient.NewOrder_new "btcUsdt" SpotClient.Buy SpotClient.Limit
  /\ FuturesClient.NewOrder_new (to_uppercase "btcUsdt") SpotClient.Buy SpotClient.Limit
     = FuturesClient.NewOrder_new "btcUsdt" SpotClient.Buy SpotClient.Limit
  /\ (forall sym, FuturesClient.symbol
                    (FuturesClient.NewOrder_new "btcUsdt" SpotClient.Buy SpotClient.Limit)
                  = Some sym ->
        stream_name_aggtrade sym = stream_name_aggtrade "btcUsdt"
        /\ stream_name_trade sym = stream_name_trade "btcUsdt").
Proof.
  split; [reflexivity |].
  apply (new_orders_carry_the_uppercased_symbol "btcUsdt" 2%float 1%float
           SpotClient.Buy SpotClient.Limit).
  reflexivity.
Defined.

(* ------------------------------------------------------------------ *)
(** ** What the futures decoder yields, and the receive loop *)

Section FuturesEvents.

Variable sch : Futures.Schema.
Variable json_from_str : string -> result Value serde_error.

Lemma decode_data_classified v ev :
  Futures.decode_data sch v = Ok (Some ev) ->
  match ev with
  | Futures.Message _ | Futures.ParseError _ _ | Futures.Unknown _ | Futures.Ping _ => False
  | _ => True
  end.
Proof.
  unfold Futures.decode_data. destruct (as_str (index v "e")) as [e |]; [| discriminate].
  repeat match goal with
         | |- (if ?c then _ else _) = _ -> _ => destruct c
         end;
    try discriminate;
    match goal with |- Futures.some_event _ ?r = _ -> _ => destruct r end;
    simpl; intros H; first [discriminate H | injection H as <-; exact I].
Qed.

Lemma decode_value_classified v ev :
  Futures.decode_value sch v = Ok (Some ev) ->
  match ev with
  | Futures.Message _ | Futures.ParseError _ _ | Futures.Unknown _ | Futures.Ping _ => False
  | _ => True
  end.
Proof.
  unfold Futures.decode_value.
  destruct (_ && _); [apply decode_data_classified |].
  destruct (is_string (index v "e")); [apply decode_data_classified | discriminate].
Qed.

Lemma decode_data_none v :
  Futures.decode_data sch v = Ok None <->
  as_str (index v "e") = None
  \/ exists d, as_str (index v "e") = Some d /\ ~ In d Futures.known_events.
Proof.
  split.
  - unfold Futures.decode_data. destruct (as_str (index v "e")) as [d |]; [| left; reflexivity].
    intros H. right. exists d. split; [reflexivity |]. intros Hin. revert H.
    simpl in Hin. destruct Hin as [<- | [<- | [<- | [<- | [<- | [<- | []]]]]]]; simpl;
      match goal with |- Futures.some_event _ ?r = _ -> _ => destruct r end;
      intros H; discriminate H.
  - intros [H | [d [Hd Hn]]].
    + unfold Futures.decode_data. rewrite H. reflexivity.
    + exact (decode_data_unknown sch v d Hd Hn).
Qed.

Lemma decode_value_none v :
  Futures.decode_value sch v = Ok None <->
  Futures.discriminator v = None
  \/ exists d, Futures.discriminator v = Some d /\ ~ In d Futures.known_events.
Proof.
  unfold Futures.decode_value, Futures.discriminator.
  destruct (_ && _); [apply decode_data_none |].
  destruct (is_string (index v "e")) eqn:Hs; [apply decode_data_none |].
  split; [intros _; left | intros _; reflexivity].
  destruct (index v "e"); simpl in *; congruence.
Qed.



Lemma decode_data_liquidation x :
  match Futures.decode_data sch x with
  | Ok (Some ev) => Futures.is_liquidation_event ev
  | _ => false
  end = true
  <-> as_str (index x "e") = Some "forceOrder"
      /\ exists l, Futures.liquidation_event_of_value sch (index x "o") = Ok l.
Proof.
  unfold Futures.decode_data.
  destruct (as_str (index x "e")) as [d |];
    [| split; [intros H; discriminate H | intros [H _]; discriminate H]].
  destruct (String.eqb_spec d "forceOrder") as [-> | Hne].
  - simpl.
    destruct (Futures.liquidation_event_of_value sch (index x "o")) as [l | e]; simpl; split.
    + intros _. split; [reflexivity | exists l; reflexivity].
    + intros _. reflexivity.
    + intros H. discriminate H.
    + intros [_ [l H]]. discriminate H.
  - assert (Hno : forall r : result (option (Futures.Event sch)) serde_error,
               (forall ev, r = Ok (Some ev) -> Futures.is_liquidation_event ev = false) ->
               match r with
               | Ok (Some ev) => Futures.is_liquidation_event ev
               | _ => false
               end = true
               <-> Some d = Some "forceOrder"
                   /\ exists l, Futures.liquidation_event_of_value sch (index x "o") = Ok l).
    { intros r Hr. split.
      - destruct r as [[ev |] | e]; try (intros H; discriminate H).
        rewrite (Hr ev eq_refl). intros H. discriminate H.
      - intros [H _]. injection H as H. contradiction. }
    apply Hno. intros ev.
    repeat match goal with
           | |- (if String.eqb d ?k then _ else _) = _ -> _ =>
               destruct (String.eqb d k)
           end;
      try (intros H; discriminate H);
      try match goal with |- Futures.some_event _ ?r = _ -> _ => destruct r end;
      simpl; intros H; try discriminate H; injection H as <-; reflexivity.
Qed.

(** [Unknown] is the event of exactly the texts that parse as JSON but
    carry no string discriminator, or one that is not among the six
    names the decoder dispatches on; the event keeps the text. *)
Theorem unknown_event_means_unclassified (t t' : string) :
  Futures.decode_text sch json_from_str t = Futures.Unknown t' <->
  t' = t /\ exists v, json_from_str t = Ok v
    /\ (Futures.discriminator v = None
        \/ exists d, Futures.discriminator v = Some d /\ ~ In d Futures.known_events).
Proof.
  unfold Futures.decode_text.
  destruct (json_from_str t) as [v | e] eqn:Hj.
  - destruct (Futures.decode_value sch v) as [[ev |] | e] eqn:Hd; cbv beta iota.
    + split.
      * intros ->. apply decode_value_classified in Hd. exfalso. exact Hd.
      * intros [-> [v' [Hv' Hor]]]. injection Hv' as <-.
        apply decode_value_none in Hor. congruence.
    + split.
      * intros H. injection H as <-. split; [reflexivity |]. exists v.
        split; [reflexivity |]. apply decode_value_none. exact Hd.
      * intros [-> _]. reflexivity.
    + split.
      * intros H. discriminate H.
      * intros [-> [v' [Hv' Hor]]]. injection Hv' as <-.
        apply decode_value_none in Hor. congruence.
  - split.
    + intros H. discriminate H.
    + intros [_ [v [H _]]]. discriminate H.
Qed.


(** [Event::is_liquidation_event] holds of the event decoded from a text
    exactly when the text is JSON whose discriminator is "forceOrder"
    and whose ["o"] member (inside ["data"] for a combined-stream
    envelope) deserializes as a liquidation. *)
Theorem liquidation_event_iff_force_order (t : string) :
  Futures.is_liquidation_event (Futures.decode_text sch json_from_str t) = true
  <-> exists v, json_from_str t = Ok v
      /\ Futures.discriminator v = Some "forceOrder"
      /\ exists l, Futures.liquidation_event_of_value sch
             (index (if is_string (index v "stream") && is_string (index (index v "data") "e")
                     then index v "data" else v) "o") = Ok l.
Proof.
  assert (Hstep : Futures.is_liquidation_event (Futures.decode_text sch json_from_str t)
    = match json_from_str t with
      | Ok v => match Futures.decode_value sch v with
                | Ok (Some ev) => Futures.is_liquidation_event ev
                | _ => false
                end
      | Err _ => false
      end).
  { unfold Futures.decode_text. destruct (json_from_str t) as [v | e]; [| reflexivity].
    destruct (Futures.decode_value sch v) as [[ev |] | e]; reflexivity. }
  rewrite Hstep. clear Hstep. destruct (json_from_str t) as [v | e].
  - transitivity (Futures.discriminator v = Some "forceOrder"
      /\ exists l, Futures.liquidation_event_of_value sch
             (index (if is_string (index v "stream") && is_string (index (index v "data") "e")
                     then index v "data" else v) "o") = Ok l).
    2: { split.
         - intros H. exists v. split; [reflexivity | exact H].
         - intros [v' [Hv H]]. injection Hv as <-. exact H. }
    unfold Futures.decode_value, Futures.discriminator.
    destruct (is_string (index v "stream") && is_string (index (index v "data") "e")).
    + apply decode_data_liquidation.
    + destruct (is_string (index v "e")) eqn:Hs.
      * apply decode_data_liquidation.
      * split; [intros H; discriminate H | intros [Hd _]].
        exfalso. destruct (index v "e"); simpl in Hs, Hd; congruence.
  - split; [intros H; discriminate H | intros [v [H _]]; discriminate H].
Qed.

Lemma drain_step f ws :
  Futures.drain sch json_from_str (S f) ws
  = match Futures.next sch json_from_str ws with
    | Panics p => Panics p
    | Returns (None, _) => Returns []
    | Returns (Some x, rest) =>
        match Futures.drain sch json_from_str f rest with
        | Returns xs => Returns (x :: xs)
        | Panics p => Panics p
        end
    end.
Proof. reflexivity. Qed.

(** A consumer calling [next] until the stream ends is handed, in order,
    one decoded event per text frame, [Event::Ping] with the payload per
    ping frame and the error per failed read, and nothing for binary,
    pong and close frames; the loop never panics. *)
Theorem drain_delivers_forwarded_frames (ws : Tungstenite.Incoming) (k : nat) :
  Futures.drain sch json_from_str (length ws + k) ws
  = Returns (flat_map (fun x => match x with
                                | Ok (Text s) => [Ok (Futures.decode_text sch json_from_str s)]
                                | Ok (Tungstenite.Ping d) => [Ok (Futures.Ping d)]
                                | Ok _ => []
                                | Err e => [Err e]
                                end) ws).
Proof.
  revert k. induction ws as [| [m | e] rest IH]; intros k.
  - destruct k; reflexivity.
  - cbn [length Nat.add]. rewrite drain_step.
    destruct m as [s | d | d | d | c].
    + rewrite next_text, IH. reflexivity.
    + rewrite next_skip by reflexivity. rewrite <- drain_step, <- Nat.add_succ_r. apply IH.
    + change (Futures.next sch json_from_str (Ok (Tungstenite.Ping d) :: rest))
        with (Returns (Some (Ok (Futures.Ping (sch := sch) d)), rest)
              : panicking (option (result (Futures.Event sch) Tungstenite.Error)
                           * Tungstenite.Incoming)).
      cbv beta iota. rewrite IH. reflexivity.
    + rewrite next_skip by reflexivity. rewrite <- drain_step, <- Nat.add_succ_r. apply IH.
    + rewrite next_skip by reflexivity. rewrite <- drain_step, <- Nat.add_succ_r. apply IH.
  - cbn [length Nat.add]. rewrite drain_step.
    change (Futures.next sch json_from_str (Err e :: rest))
      with (Returns (Some (Err e), rest)
            : panicking (option (result (Futures.Event sch) Tungstenite.Error)
                         * Tungstenite.Incoming)).
    cbv beta iota. rewrite IH. reflexivity.
Qed.

End FuturesEvents.


(** The spot receive loop skips binary, pong and close frames; an event
    it returns is the decoding of the first text or ping frame, all
    frames before it skipped, and a ping comes back as [Message] wrapping
    the frame; a failed read is returned as is; the stream ends ([None])
    exactly when every remaining frame is one it skips. *)
Theorem spot_receive_loop_skips_and_forwards
    (sch : Spot.Schema) (json_from_str : string -> result Value serde_error) :
  (forall ws ev rest, Spot.next sch json_from_str ws = (Some (Ok ev), rest) ->
     exists skipped m, ws = (skipped ++ Ok m :: rest)%list /\ forwarded m = true
       /\ ev = Spot.decode_event sch json_from_str m
       /\ Forall (fun x => exists m', x = Ok m' /\ forwarded m' = false) skipped)
  /\ (forall ws e rest, Spot.next sch json_from_str ws = (Some (Err e), rest) ->
     exists skipped, ws = (skipped ++ Err e :: rest)%list
       /\ Forall (fun x => exists m', x = Ok m' /\ forwarded m' = false) skipped)
  /\ (forall ws, fst (Spot.next sch json_from_str ws) = None <->
        Forall (fun x => exists m', x = Ok m' /\ forwarded m' = false) ws)
  /\ (forall d rest, Spot.next sch json_from_str (Ok (Tungstenite.Ping d) :: rest)
        = (Some (Ok (Spot.Message (Tungstenite.Ping d))), rest)).
Proof.
  split; [| split; [| split]].
  - intros ws. induction ws as [| [m | e'] ws IH]; simpl; intros ev rest H.
    + discriminate H.
    + destruct (forwarded m) eqn:Hf.
      * injection H as <- <-. exists [], m. repeat split; [exact Hf | constructor].
      * destruct (IH ev rest H) as [sk [m' [Hws [Hf' [Hev Hall]]]]].
        exists (Ok m :: sk), m'. rewrite Hws. repeat split; [exact Hf' | exact Hev |].
        constructor; [exists m; auto | exact Hall].
    + discriminate H.
  - intros ws. induction ws as [| [m | e'] ws IH]; simpl; intros e rest H.
    + discriminate H.
    + destruct (forwarded m) eqn:Hf; [discriminate H |].
      destruct (IH e rest H) as [sk [Hws Hall]].
      exists (Ok m :: sk). rewrite Hws. split; [reflexivity |].
      constructor; [exists m; auto | exact Hall].
    + injection H as <- <-. exists []. split; [reflexivity | constructor].
  - intros ws. induction ws as [| [m | e] ws IH]; simpl.
    + split; [intros _; constructor | reflexivity].
    + destruct (forwarded m) eqn:Hf; simpl.
      * split; [intros H; discriminate H |].
        intros H. inversion H as [| ? ? [m' [Hm' Hf']] _]. injection Hm' as <-. congruence.
      * rewrite IH. split.
        -- intros H. constructor; [exists m; auto | exact H].
        -- intros H. inversion H. assumption.
    + split; [intros H; discriminate H |].
      intros H. inversion H as [| ? ? [m' [Hm' _]] _]. discriminate Hm'.
  - reflexivity.
Qed.
